(** * Folder replication: the tree reader and the tree writer of
    [streamlit_app.py] (get_folder_structure, create_folder_structure,
    get_shared_drives), embedded in Rocq.

    Paths are strings joined with [os.sep] (["/"], POSIX); [os.path.join]
    and [os.path.dirname] are those of [posixpath].  A Python dict that the
    code iterates over ([structure]) is an association list in insertion
    order; the destination id map ([folder_id_map]), only looked up and
    updated, is a [gmap string string]. *)

From Stdlib Require Import Ascii String List Bool Arith Lia Sorted Permutation.
From stdpp Require Import base gmap strings list.
Import ListNotations.
Open Scope string_scope.

(* ------------------------------------------------------------------ *)
(** ** Path helpers ([os.sep], [str.count], [os.path.join], [os.path.dirname]) *)

Definition sep : ascii := "/"%char.

Definition is_sep (c : ascii) : bool := Ascii.eqb c sep.

(** [x.count(os.sep)] *)
Fixpoint count_sep (s : string) : nat :=
  match s with
  | EmptyString => 0
  | String c r => (if is_sep c then 1 else 0) + count_sep r
  end.

(** [s.startswith('/')] *)
Definition starts_with_sep (s : string) : bool :=
  match s with
  | String c _ => is_sep c
  | EmptyString => false
  end.

(** [s.endswith('/')] *)
Fixpoint ends_with_sep (s : string) : bool :=
  match s with
  | EmptyString => false
  | String c EmptyString => is_sep c
  | String _ r => ends_with_sep r
  end.

(** [posixpath.join(a, b)] for two arguments. *)
Definition path_join (a b : string) : string :=
  if starts_with_sep b then b
  else if String.eqb a "" || ends_with_sep a then String.append a b
  else String.append a (String sep b).

(** [p[:p.rfind('/') + 1]]: the prefix up to and including the last
    separator, empty when there is none. *)
Fixpoint head_through_last_sep (s : string) : string :=
  match s with
  | EmptyString => EmptyString
  | String c r =>
      let h := head_through_last_sep r in
      if String.eqb h "" then (if is_sep c then String c EmptyString else EmptyString)
      else String c h
  end.

(** [s.rstrip('/')] *)
Fixpoint rstrip_sep (s : string) : string :=
  match s with
  | EmptyString => EmptyString
  | String c r =>
      let t := rstrip_sep r in
      if String.eqb t "" && is_sep c then EmptyString else String c t
  end.

Fixpoint all_sep (s : string) : bool :=
  match s with
  | EmptyString => true
  | String c r => is_sep c && all_sep r
  end.

(** [posixpath.dirname(p)] *)
Definition dirname (p : string) : string :=
  let head := head_through_last_sep p in
  if negb (String.eqb head "") && negb (all_sep head) then rstrip_sep head
  else head.

(* ------------------------------------------------------------------ *)
(** ** Python dicts iterated in insertion order *)

(** [structure]: path -> child folder names, in insertion order. *)
Definition structure := list (string * list string).

Fixpoint st_lookup (k : string) (s : structure) : option (list string) :=
  match s with
  | [] => None
  | (k', v) :: r => if String.eqb k k' then Some v else st_lookup k r
  end.

(** [if path not in structure: structure[path] = []] followed by
    [structure[path].append(name)]: an existing key keeps its place. *)
Fixpoint st_append (k : string) (x : string) (s : structure) : structure :=
  match s with
  | [] => [(k, [x])]
  | (k', v) :: r =>
      if String.eqb k k' then (k', app v [x]) :: r else (k', v) :: st_append k x r
  end.

Definition st_keys (s : structure) : list string := map fst s.

(** [sorted(keys, key=lambda x: x.count(os.sep))]: Python's sort is
    stable, and so is this insertion sort (an element is put before the
    first later element whose key is not smaller). *)
Fixpoint insert_by_depth (x : string) (l : list string) : list string :=
  match l with
  | [] => [x]
  | h :: t => if Nat.leb (count_sep x) (count_sep h) then x :: h :: t
              else h :: insert_by_depth x t
  end.

Definition sort_by_depth (l : list string) : list string :=
  fold_right insert_by_depth [] l.

(** [x in lst] on a list of strings. *)
Definition str_mem (x : string) (l : list string) : bool :=
  existsb (String.eqb x) l.

(* ------------------------------------------------------------------ *)
(** ** Progress messages *)

Inductive msg :=
| MFound (n : nat)                         (* "Found {n} path entries ..." *)
| MPathInfo (path : string)                (* "Path: ... contains folders" *)
| MOrder (paths : list string)             (* "Processing paths in order" *)
| MParentInfo (path parent : string)       (* "For path ..., parent path is" *)
| MWarning (parent : string)               (* "Warning: Parent path ... not found" *)
| MCreated (path id : string)              (* "Created: {new_path} (ID: ...)" *)
| MCreateError (name path : string)        (* "Error creating folder ..." *)
| MReading (path : string)                 (* "Reading: {current_path}" *)
| MReadError (path folder_id : string).    (* "Error accessing {path}/{id}" *)

(* ------------------------------------------------------------------ *)
(** ** The tree writer: [create_folder_structure] *)

(** One [service.files().create(body=..., **params).execute()] call:
    the folder name, the parent id in [body['parents']], whether
    [supportsAllDrives] was passed, and the outcome ([None] when
    [execute()] raised).  [c_path] is the [new_path] the code computes
    for this name ([os.path.join(path, folder_name) if path else
    folder_name]), kept with the call so that claims can speak of it. *)
Record call := {
  c_name : string;
  c_parent : string;
  c_all_drives : bool;
  c_path : string;
  c_result : option string
}.

Record wstate := {
  w_map : gmap string string;     (* folder_id_map *)
  w_calls : list call;            (* creation calls issued so far *)
  w_log : list msg                (* strings passed to progress_callback *)
}.

(** How a run ends: it returns [folder_id_map], or an exception escapes
    (after the side effects recorded in the state). *)
Inductive outcome :=
| Returned (s : wstate)
| Raised (s : wstate).

Definition final (o : outcome) : wstate :=
  match o with Returned s | Raised s => s end.

Definition w_set_map (m : gmap string string) (s : wstate) : wstate :=
  {| w_map := m; w_calls := w_calls s; w_log := w_log s |}.

Definition w_add_call (c : call) (s : wstate) : wstate :=
  {| w_map := w_map s; w_calls := app (w_calls s) [c]; w_log := w_log s |}.

Definition w_add_log (l : list msg) (s : wstate) : wstate :=
  {| w_map := w_map s; w_calls := w_calls s; w_log := app (w_log s) l |}.

Section Writer.
(** The creation service: the result of the [n]-th creation call of the
    run, [None] when it raises. *)
Variable svc_create : nat -> option string.
Variable strc : structure.              (* structure *)
Variable root : string.                 (* source_folder_name *)
Variable dest : string.                 (* destination_folder_id *)
Variable is_shared : bool.              (* is_shared_drive *)
Variable has_cb : bool.                 (* progress_callback is not None *)

(** [if progress_callback: progress_callback(m)] *)
Definition say (m : msg) (s : wstate) : wstate :=
  if has_cb then w_add_log [m] s else s.

(** The inner loop [for folder_name in structure[path]: ...] with its
    [try]/[except]. *)
Fixpoint create_each (path parent_id : string) (names : list string)
    (s : wstate) : wstate :=
  match names with
  | [] => s
  | nm :: rest =>
      if String.eqb path "" && String.eqb nm root then
        create_each path parent_id rest s
      else
        let res := svc_create (length (w_calls s)) in
        let np := if String.eqb path "" then nm else path_join path nm in
        let s1 := w_add_call {| c_name := nm; c_parent := parent_id;
                                c_all_drives := is_shared; c_path := np;
                                c_result := res |} s in
        let s2 := match res with
                  | Some i => say (MCreated np i) (w_set_map (<[np := i]> (w_map s1)) s1)
                  | None => say (MCreateError nm path) s1
                  end in
        create_each path parent_id rest s2
  end.

Definition names_at (path : string) : list string :=
  match st_lookup path strc with Some l => l | None => [] end.

(** The outer loop [for path in paths: ...].  The warning for a missing
    parent calls [progress_callback] without checking it, so with no
    callback the call raises [TypeError] and the run ends there. *)
Fixpoint process_paths (paths : list string) (s : wstate) : outcome :=
  match paths with
  | [] => Returned s
  | path :: rest =>
      if String.eqb path "" && str_mem root (names_at path) then
        process_paths rest s
      else
        let parent := if String.eqb path "" then "" else dirname path in
        let s1 := say (MParentInfo path parent) s in
        match w_map s1 !! parent with
        | None =>
            if String.eqb path "" then
              process_paths rest (create_each path dest (names_at path) s1)
            else if has_cb then
              process_paths rest (w_add_log [MWarning parent] s1)
            else Raised s1
        | Some parent_id =>
            process_paths rest (create_each path parent_id (names_at path) s1)
        end
  end.

Definition seed_map : gmap string string :=
  let m0 : gmap string string := <["" := dest]> ∅ in
  match st_lookup "" strc with
  | Some l => if str_mem root l then <[root := dest]> m0 else m0
  | None => m0
  end.

Definition create_folder_structure : outcome :=
  let s0 := {| w_map := seed_map; w_calls := []; w_log := [] |} in
  let s1 := if has_cb then w_add_log (MFound (length strc) :: map MPathInfo (st_keys strc)) s0
            else s0 in
  let paths := sort_by_depth (st_keys strc) in
  process_paths paths (say (MOrder paths) s1).

End Writer.

(** A creation service that always succeeds, returning ["new0"],
    ["new1"], ... *)
Definition fresh_ids (n : nat) : option string :=
  Some (String.append "new" (String (ascii_of_nat (48 + n)) "")).

(** The scenario of the spec: [{"": ["A"], "A": ["B", "C"], "A/B": ["D"]}]. *)
Definition scenario : structure := [("", ["A"]); ("A", ["B"; "C"]); ("A/B", ["D"])].

(** A creation service whose first call raises and the others succeed. *)
Definition first_fails (n : nat) : option string :=
  if Nat.eqb n 0 then None else fresh_ids n.

(** Replaying the successful creation calls, in order, over a map. *)
Definition replay (calls : list call) (m : gmap string string) : gmap string string :=
  fold_left (fun m c => match c_result c with Some i => <[c_path c := i]> m | None => m end)
    calls m.

(* ------------------------------------------------------------------ *)
(** ** The tree reader: [get_folder_structure] *)

Definition folder_mime : string := "application/vnd.google-apps.folder".

(** A remote file as the service reports it. *)
Record rfile := {
  f_id : string;
  f_name : string;
  f_mime : string;
  f_trashed : bool
}.

(** The keyword arguments of [service.files().get(fileId=..., ...)]. *)
Record get_params := {
  g_fileId : string;
  g_supportsAllDrives : option bool
}.

(** The keyword arguments of [service.files().list(q=..., ...)]; an
    absent key is [None]. *)
Record list_params := {
  lp_q : string;
  lp_fields : string;
  lp_supportsAllDrives : option bool;
  lp_driveId : option string;
  lp_corpora : option string;
  lp_includeItemsFromAllDrives : option bool;
  lp_includeTeamDriveItems : option bool
}.

(** [.execute()] of a listing: the files, or an exception and its text. *)
Inductive lresult :=
| LOk (items : list rfile)
| LErr (message : string).

Fixpoint is_prefix (p s : string) : bool :=
  match p, s with
  | EmptyString, _ => true
  | String a p', String b s' => Ascii.eqb a b && is_prefix p' s'
  | String _ _, EmptyString => false
  end.

(** [p in s] on strings. *)
Fixpoint contains (p s : string) : bool :=
  is_prefix p s || match s with EmptyString => false | String _ s' => contains p s' end.

(** The [q] of the listing: folders whose parent is [folder_id], not
    trashed, of the folder MIME type. *)
Definition query_for (folder_id : string) : string :=
  String.append "'" (String.append folder_id
    "' in parents and trashed = false and mimeType = 'application/vnd.google-apps.folder'").

(** A Python truth test on an optional string ([None] and the empty string are false). *)
Definition truthy (o : option string) : bool :=
  match o with Some t => negb (String.eqb t "") | None => false end.

(** [del list_params['includeItemsFromAllDrives']] and
    [list_params['includeTeamDriveItems'] = True]. *)
Definition legacy (p : list_params) : list_params :=
  {| lp_q := lp_q p; lp_fields := lp_fields p;
     lp_supportsAllDrives := lp_supportsAllDrives p; lp_driveId := lp_driveId p;
     lp_corpora := lp_corpora p; lp_includeItemsFromAllDrives := None;
     lp_includeTeamDriveItems := Some true |}.

(** The state threaded through the reader: the shared [structure] dict,
    the progress messages, and the listing calls issued. *)
Record rstate := {
  r_struct : structure;
  r_log : list msg;
  r_lcalls : list list_params
}.

Definition r_set_struct (st : structure) (s : rstate) : rstate :=
  {| r_struct := st; r_log := r_log s; r_lcalls := r_lcalls s |}.

Definition r_add_lcalls (l : list list_params) (s : rstate) : rstate :=
  {| r_struct := r_struct s; r_log := r_log s; r_lcalls := app (r_lcalls s) l |}.

Definition empty_rstate : rstate := {| r_struct := []; r_log := []; r_lcalls := [] |}.

Section Reader.
(** [service.files().get(fileId=..., ...).execute()]: [None] when it raises. *)
Variable svc_get : get_params -> option rfile.
(** [service.files().list(q=..., ...).execute()]. *)
Variable svc_list : list_params -> lresult.
Variable is_shared : bool.              (* is_shared_drive *)
Variable drive_id : option string.      (* drive_id *)
Variable has_cb : bool.                 (* progress_callback is not None *)

Definition rsay (m : msg) (s : rstate) : rstate :=
  if has_cb then {| r_struct := r_struct s; r_log := app (r_log s) [m];
                    r_lcalls := r_lcalls s |}
  else s.

Definition get_params_for (folder_id : string) : get_params :=
  {| g_fileId := folder_id; g_supportsAllDrives := if is_shared then Some true else None |}.

Definition mk_list_params (folder_id : string) : list_params :=
  let base := {| lp_q := query_for folder_id; lp_fields := "files(id, name, mimeType)";
                 lp_supportsAllDrives := None; lp_driveId := None; lp_corpora := None;
                 lp_includeItemsFromAllDrives := None; lp_includeTeamDriveItems := None |} in
  if is_shared then
    {| lp_q := lp_q base; lp_fields := lp_fields base;
       lp_supportsAllDrives := Some true;
       lp_driveId := if truthy drive_id then drive_id else None;
       lp_corpora := if truthy drive_id then Some "drive" else None;
       lp_includeItemsFromAllDrives := Some true;
       lp_includeTeamDriveItems := None |}
  else base.

(** The listing with its fallback: when the error text mentions
    [includeItemsFromAllDrives], one more call with the legacy
    parameter; otherwise the error is re-raised.  Returns the calls
    issued and the final outcome. *)
Definition list_children (p : list_params) : list list_params * lresult :=
  match svc_list p with
  | LOk items => ([p], LOk items)
  | LErr e =>
      if contains "includeItemsFromAllDrives" e then ([p; legacy p], svc_list (legacy p))
      else ([p], LErr e)
  end.

(** [get_folder_structure].  The whole body is inside [try]; the
    [except] reports through the callback (when there is one) and the
    function returns [structure].  [fuel] bounds the recursion depth
    ([None] when it runs out): a finite folder tree is read completely
    with enough of it. *)
Fixpoint get_folder_structure (fuel : nat) (folder_id path : string) (s : rstate)
    : option rstate :=
  match fuel with
  | O => None
  | S f =>
      match svc_get (get_params_for folder_id) with
      | None => Some (rsay (MReadError path folder_id) s)
      | Some folder =>
          let name := f_name folder in
          let current_path := if String.eqb path "" then name else path_join path name in
          let s1 := r_set_struct (st_append path name (r_struct s)) s in
          let lc := list_children (mk_list_params folder_id) in
          let s2 := r_add_lcalls (fst lc) s1 in
          match snd lc with
          | LErr _ => Some (rsay (MReadError path folder_id) s2)
          | LOk items =>
              (fix loop (its : list rfile) (s : rstate) : option rstate :=
                 match its with
                 | [] => Some s
                 | it :: rest =>
                     if String.eqb (f_mime it) folder_mime then
                       match get_folder_structure f (f_id it) current_path s with
                       | None => None
                       | Some s' => loop rest s'
                       end
                     else loop rest s
                 end) items (rsay (MReading current_path) s2)
          end
      end
  end.

End Reader.

(* ------------------------------------------------------------------ *)
(** ** Listing shared drives: [get_shared_drives] *)

(** A page request: [drives().list(pageSize=100, pageToken=tok)] or
    [teamdrives().list(...)]. *)
Inductive dcall :=
| DrivesList (tok : option string)
| TeamDrivesList (tok : option string).

Inductive loop_end :=
| LoopDone (acc : list string) (calls : list dcall)
| LoopFailed (acc : list string) (tok : option string) (calls : list dcall)
| LoopFuel.

Section SharedDrives.
(** One page: the drives and [nextPageToken]; [None] when it raises. *)
Variable svc_drives : option string -> option (list string * option string).
Variable svc_teamdrives : option string -> option (list string * option string).

(** [while True: response = ...; shared_drives.extend(...);
    page_token = ...; if not page_token: break].  On an exception the
    drives gathered and the token of the failing request are kept. *)
Fixpoint page_loop (fuel : nat) (team : bool) (tok : option string)
    (acc : list string) (calls : list dcall) : loop_end :=
  match fuel with
  | O => LoopFuel
  | S f =>
      let c := if team then TeamDrivesList tok else DrivesList tok in
      match (if team then svc_teamdrives else svc_drives) tok with
      | None => LoopFailed acc tok (app calls [c])
      | Some (ds, next) =>
          if truthy next then page_loop f team next (app acc ds) (app calls [c])
          else LoopDone (app acc ds) (app calls [c])
      end
  end.

(** [get_shared_drives]: the newer API first; on any exception the
    [teamdrives()] API, starting from the current page token; an
    exception there is reported and [[]] returned. *)
Definition get_shared_drives (fuel : nat) : option (list dcall * list string) :=
  match page_loop fuel false None [] [] with
  | LoopDone acc cs => Some (cs, acc)
  | LoopFailed acc tok cs =>
      match page_loop fuel true tok acc cs with
      | LoopDone acc' cs' => Some (cs', acc')
      | LoopFailed _ _ cs' => Some (cs', [])
      | LoopFuel => None
      end
  | LoopFuel => None
  end.
End SharedDrives.

(* ------------------------------------------------------------------ *)
(** ** Small remote trees for running the reader *)

Definition f_root : rfile := {| f_id := "R"; f_name := "Root"; f_mime := folder_mime; f_trashed := false |}.
Definition f_docs : rfile := {| f_id := "C"; f_name := "Docs"; f_mime := folder_mime; f_trashed := false |}.
Definition f_note : rfile := {| f_id := "N"; f_name := "notes.txt"; f_mime := "text/plain"; f_trashed := false |}.

(** [files().get]: knows the three files above. *)
Definition demo_get (gp : get_params) : option rfile :=
  if String.eqb (g_fileId gp) "R" then Some f_root
  else if String.eqb (g_fileId gp) "C" then Some f_docs
  else if String.eqb (g_fileId gp) "N" then Some f_note
  else None.

(** [files().list]: ["R"] holds [Docs] (a folder) and [notes.txt]; ["C"]
    is empty. *)
Definition demo_list (p : list_params) : lresult :=
  if String.eqb (lp_q p) (query_for "R") then LOk [f_docs; f_note] else LOk [].

(** The same, except that listing ["C"] fails. *)
Definition demo_list_fail (p : list_params) : lresult :=
  if String.eqb (lp_q p) (query_for "R") then LOk [f_docs; f_note]
  else LErr "Internal error".

(** A listing that rejects [includeItemsFromAllDrives] and accepts the
    legacy parameter. *)
Definition demo_list_old_api (p : list_params) : lresult :=
  match lp_includeItemsFromAllDrives p with
  | Some _ => LErr "Invalid field selection includeItemsFromAllDrives"
  | None => demo_list p
  end.

(** Shared-drive pages: the newer API raises, the older one returns one
    page. *)
Definition drives_raise (tok : option string) : option (list string * option string) := None.
Definition teamdrives_one (tok : option string) : option (list string * option string) :=
  Some (["Team"], None).

(* ------------------------------------------------------------------ *)
(** ** Sorting by a key, [str.split], and the tree view
    ([display_nested_structure], [print_nested_structure]) *)

(** [sorted(l, key=key)]: a stable insertion sort. *)
Fixpoint insert_on (key : string -> nat) (x : string) (l : list string) : list string :=
  match l with
  | [] => [x]
  | h :: t => if Nat.leb (key x) (key h) then x :: h :: t else h :: insert_on key x t
  end.

Definition sort_on (key : string -> nat) (l : list string) : list string :=
  fold_right (insert_on key) [] l.

(** [s.split(os.sep)]: never empty; [""] splits to [[""]]. *)
Fixpoint split_sep (s : string) : list string :=
  match s with
  | EmptyString => [""]
  | String c r =>
      let l := split_sep r in
      if is_sep c then "" :: l
      else match l with
           | [] => [String c ""]
           | h :: t => String c h :: t
           end
  end.

(** A nested Python dict whose values are dicts: its entries in
    insertion order. *)
#[warnings="-register-all"]
Inductive nd := ND (entries : list (string * nd)).

Definition nd_entries (d : nd) : list (string * nd) := match d with ND es => es end.

(** [d[k]] when present. *)
Fixpoint get_key (k : string) (es : list (string * nd)) : option nd :=
  match es with
  | [] => None
  | (k', v) :: r => if String.eqb k k' then Some v else get_key k r
  end.

(** [d[k] = v]: an existing key keeps its place, a new one goes last. *)
Fixpoint set_key (k : string) (v : nd) (es : list (string * nd)) : list (string * nd) :=
  match es with
  | [] => [(k, v)]
  | (k', v') :: r => if String.eqb k k' then (k', v) :: r else (k', v') :: set_key k v r
  end.

(** The navigation [for part in parts: if part in current: current =
    current[part] else: current[part] = {}; current = current[part]]
    followed by the update [f] of the dict reached.  [current] aliases a
    dict inside [nested], so updating it updates [nested]. *)
Fixpoint update_at (parts : list string) (f : nd -> nd) (d : nd) : nd :=
  match parts with
  | [] => f d
  | p :: ps =>
      let child := match get_key p (nd_entries d) with Some c => c | None => ND [] end in
      ND (set_key p (update_at ps f child) (nd_entries d))
  end.

(** [for folder in names: current[folder] = {}] *)
Definition add_empty (names : list string) (d : nd) : nd :=
  ND (fold_left (fun es f => set_key f (ND []) es) names (nd_entries d)).

(** The loop [for path in sorted(...): if path == "": continue; ...]. *)
Definition nest_paths (strc : structure) (paths : list string) (d : nd) : nd :=
  fold_left (fun d path =>
               if String.eqb path "" then d
               else update_at (split_sep path) (add_empty (names_at strc path)) d)
            paths d.

(** [display_nested_structure(structure, source_folder_name)] *)
Definition display_nested_structure (strc : structure) (root : string) : nd :=
  let nested0 :=
    match st_lookup "" strc with
    | Some ((_ :: _) as l) =>
        ND (fold_left (fun es f => if String.eqb f root then set_key f (ND []) es else es)
                      l [])
    | _ => ND []
    end in
  nest_paths strc (sort_on (fun x => length (split_sep x)) (st_keys strc)) nested0.

(** A path of keys leads from [d] to some nested dict. *)
Fixpoint has_path (d : nd) (ps : list string) : Prop :=
  match ps with
  | [] => True
  | p :: ps' => exists c, get_key p (nd_entries d) = Some c /\ has_path c ps'
  end.

(** A path of entries, read as [d.items()] yields them, leads from [d]
    to some nested dict. *)
Fixpoint in_tree (d : nd) (ps : list string) : Prop :=
  match ps with
  | [] => True
  | p :: ps' => exists c, In (p, c) (nd_entries d) /\ in_tree c ps'
  end.

Fixpoint spaces (n : nat) : string :=
  match n with O => "" | S m => String.append "  " (spaces m) end.

(** [print_nested_structure(nested, indent)] *)
Fixpoint print_nested_structure (d : nd) (indent : nat) {struct d} : list string :=
  match d with
  | ND es =>
      (fix go (es : list (string * nd)) : list string :=
         match es with
         | [] => []
         | (k, v) :: r =>
             String.append (spaces indent) (String.append "└── " k)
               :: app (print_nested_structure v (S indent)) (go r)
         end) es
  end.

(** The number of keys in a nested dict, at every level. *)
Fixpoint nd_size (d : nd) : nat :=
  match d with
  | ND es => (fix go (es : list (string * nd)) : nat :=
                match es with [] => 0 | (_, v) :: r => S (nd_size v + go r) end) es
  end.

(* ------------------------------------------------------------------ *)
(** ** Facts about the path helpers *)

Lemma count_sep_append (a b : string) :
  count_sep (String.append a b) = count_sep a + count_sep b.
Proof. induction a as [|c a IH]; simpl; [reflexivity|]. rewrite IH. lia. Qed.

Lemma ends_with_sep_count (a : string) : ends_with_sep a = true -> 1 <= count_sep a.
Proof.
  induction a as [|c a IH]; simpl; [discriminate|].
  destruct a as [|c' a'].
  - intros H. rewrite H. simpl. lia.
  - intros H. specialize (IH H). lia.
Qed.

Lemma starts_with_sep_count (b : string) : starts_with_sep b = true -> 1 <= count_sep b.
Proof. destruct b as [|c b]; simpl; [discriminate|]. intros H; rewrite H; lia. Qed.

(** A path joined under a non-empty path always contains a separator. *)
Lemma path_join_count (a b : string) : a <> "" -> 1 <= count_sep (path_join a b).
Proof.
  intros Ha. unfold path_join.
  destruct (starts_with_sep b) eqn:Hb; [now apply starts_with_sep_count|].
  assert (Hne : String.eqb a "" = false) by now apply String.eqb_neq.
  rewrite Hne. simpl.
  destruct (ends_with_sep a) eqn:He.
  - rewrite count_sep_append. pose proof (ends_with_sep_count a He). lia.
  - rewrite count_sep_append. simpl. lia.
Qed.

(* ------------------------------------------------------------------ *)
(** ** Invariants of the writer's loops *)

Section WriterFacts.
Variable svc_create : nat -> option string.
Variable strc : structure.
Variable root dest : string.
Variable is_shared has_cb : bool.

Local Abbreviation create_each := (create_each svc_create root is_shared has_cb).
Local Abbreviation process_paths := (process_paths svc_create strc root dest is_shared has_cb).

(** Every creation call so far has a full path containing a separator,
    and the entries of separator-free keys are still the seeded ones. *)
Definition sep_inv (s : wstate) : Prop :=
  Forall (fun c => 1 <= count_sep (c_path c)) (w_calls s) /\
  forall k, count_sep k = 0 -> w_map s !! k = seed_map strc root dest !! k.

Lemma say_calls m s : w_calls (say has_cb m s) = w_calls s.
Proof. unfold say. now destruct has_cb. Qed.

Lemma say_map m s : w_map (say has_cb m s) = w_map s.
Proof. unfold say. now destruct has_cb. Qed.

Lemma create_each_sep_inv path pid names s :
  path <> "" -> sep_inv s -> sep_inv (create_each path pid names s).
Proof.
  intros Hp. revert s. induction names as [|nm rest IH]; intros s [Hc Hm]; simpl; [now split|].
  assert (Hpe : String.eqb path "" = false) by now apply String.eqb_neq.
  rewrite Hpe. simpl. apply IH.
  pose proof (path_join_count path nm Hp) as Hj.
  destruct (svc_create (length (w_calls s))) as [i|]; split.
  - rewrite say_calls. simpl. apply Forall_app. split; [exact Hc|]. now constructor.
  - intros k Hk. rewrite say_map. simpl. rewrite lookup_insert_ne; [now apply Hm|].
    intros Heq. rewrite Heq in Hj. lia.
  - rewrite say_calls. simpl. apply Forall_app. split; [exact Hc|]. now constructor.
  - intros k Hk. rewrite say_map. simpl. now apply Hm.
Qed.

Lemma process_paths_sep_inv paths s :
  str_mem root (names_at strc "") = true -> sep_inv s ->
  sep_inv (final (process_paths paths s)).
Proof.
  intros Hr. revert s. induction paths as [|path rest IH]; intros s Hs; simpl; [exact Hs|].
  destruct (String.eqb path "") eqn:Hp.
  - apply String.eqb_eq in Hp. subst path. rewrite Hr. simpl. now apply IH.
  - simpl. apply String.eqb_neq in Hp.
    assert (Hs1 : sep_inv (say has_cb (MParentInfo path (dirname path)) s)).
    { destruct Hs as [Hc Hm]. split; [now rewrite say_calls|].
      intros k Hk. rewrite say_map. now apply Hm. }
    destruct (w_map _ !! dirname path) as [pid|].
    + apply IH. now apply create_each_sep_inv.
    + destruct has_cb; simpl; [|exact Hs1].
      apply IH. destruct Hs1 as [Hc Hm]. split; [exact Hc|]. exact Hm.
Qed.

Lemma create_folder_structure_sep_inv :
  str_mem root (names_at strc "") = true ->
  sep_inv (final (create_folder_structure svc_create strc root dest is_shared has_cb)).
Proof.
  intros Hr. unfold create_folder_structure. apply process_paths_sep_inv; [exact Hr|].
  split.
  - rewrite say_calls. destruct has_cb; simpl; constructor.
  - intros k _. rewrite say_map. destruct has_cb; reflexivity.
Qed.

(** The map is the seed updated by the successful calls, in order. *)
Definition replay_inv (s : wstate) : Prop :=
  w_map s = replay (w_calls s) (seed_map strc root dest).

Lemma create_each_replay_inv path pid names s :
  replay_inv s -> replay_inv (create_each path pid names s).
Proof.
  revert s. induction names as [|nm rest IH]; intros s Hs; simpl; [exact Hs|].
  destruct (String.eqb path "" && String.eqb nm root); [now apply IH|].
  apply IH. unfold replay_inv, replay in *.
  destruct (svc_create (length (w_calls s))) as [i|];
    rewrite say_map, say_calls; simpl; rewrite fold_left_app; simpl; now rewrite <- Hs.
Qed.

Lemma process_paths_replay_inv paths s :
  replay_inv s -> replay_inv (final (process_paths paths s)).
Proof.
  revert s. induction paths as [|path rest IH]; intros s Hs; simpl; [exact Hs|].
  assert (Hs1 : forall m, replay_inv (say has_cb m s)).
  { intros m. unfold replay_inv. now rewrite say_map, say_calls. }
  destruct (String.eqb path "" && str_mem root (names_at strc path)); [now apply IH|].
  destruct (w_map _ !! _) as [pid|].
  - apply IH. now apply create_each_replay_inv.
  - destruct (String.eqb path ""); [apply IH; now apply create_each_replay_inv|].
    destruct has_cb; simpl.
    + apply IH. exact (Hs1 (MParentInfo path (dirname path))).
    + exact (Hs1 (MParentInfo path (dirname path))).
Qed.
End WriterFacts.

Lemma replay_keeps (calls : list call) (m : gmap string string) (k : string) :
  is_Some (m !! k) -> is_Some (replay calls m !! k).
Proof.
  revert m. induction calls as [|c cs IH]; intros m Hk; simpl; [exact Hk|].
  apply IH. destruct (c_result c) as [i|]; [|exact Hk].
  destruct (decide (c_path c = k)) as [->|Hne].
  - rewrite lookup_insert_eq. eauto.
  - rewrite lookup_insert_ne by exact Hne. exact Hk.
Qed.

Lemma seed_map_root (strc : structure) (root dest : string) :
  str_mem root (names_at strc "") = true -> seed_map strc root dest !! root = Some dest.
Proof.
  unfold names_at, seed_map. destruct (st_lookup "" strc) as [l|]; [|discriminate].
  intros H. rewrite H. apply lookup_insert_eq.
Qed.

Lemma seed_map_other (strc : structure) (root dest x : string) :
  x <> root -> x <> "" -> seed_map strc root dest !! x = None.
Proof.
  intros Hr He. unfold seed_map. cbv zeta.
  destruct (st_lookup "" strc) as [l|]; [destruct (str_mem root l)|];
    rewrite ?lookup_insert_ne by congruence; apply lookup_empty.
Qed.

(* ------------------------------------------------------------------ *)
(** ** Claims about the writer *)

(** C1 (the writer reproduces the hierarchy): on the spec's scenario
    [{"": ["A"], "A": ["B", "C"], "A/B": ["D"]}] with root ["A"] and
    destination ["ROOT"], the folder ["A/B/D"] is created under ["ROOT"],
    the id of ["A/B"]'s grandparent, not under the id of its parent
    ["A/B"] ("new0"): the parent id is looked up for [dirname(path)]
    instead of [path]. *)
Lemma C1_grandchild_created_under_root :
  let s := final (create_folder_structure fresh_ids scenario "A" "ROOT" false true) in
  w_calls s =
    [ {| c_name := "B"; c_parent := "ROOT"; c_all_drives := false; c_path := "A/B"; c_result := Some "new0" |};
      {| c_name := "C"; c_parent := "ROOT"; c_all_drives := false; c_path := "A/C"; c_result := Some "new1" |};
      {| c_name := "D"; c_parent := "ROOT"; c_all_drives := false; c_path := "A/B/D"; c_result := Some "new2" |} ]
  /\ w_map s !! "A/B" = Some "new0".
Proof. split; reflexivity. Qed.

(** C2 (parent recorded before child): on the spec's scenario, when the
    creation of ["A/B"] fails, the writer still creates ["A/B/D"] and
    inserts it into the map although its parent path ["A/B"] has no
    entry: the check is made on [dirname("A/B") = "A"]. *)
Lemma C2_child_inserted_without_parent :
  let s := final (create_folder_structure first_fails scenario "A" "ROOT" false true) in
  w_map s !! "A/B/D" = Some "new2" /\ w_map s !! "A/B" = None.
Proof. split; reflexivity. Qed.

(** C3 counterexample: with a root name containing the separator,
    [{"": ["a/b"], "a": ["b"]}] and root ["a/b"], a creation call is made
    for the full path ["a/b"] and its binding replaces the alias to the
    destination root. *)
Lemma C3_slash_root_rebound :
  let strc := [("", ["a/b"]); ("a", ["b"])] in
  let s := final (create_folder_structure fresh_ids strc "a/b" "D" false true) in
  str_mem "a/b" (names_at strc "") = true /\
  map c_path (w_calls s) = ["a/b"] /\ w_map s !! "a/b" = Some "new0".
Proof. repeat split; reflexivity. Qed.

(** C3 (root aliasing, amended): when the root's name is recorded at the
    empty path and contains no separator, the final map (also when the
    run raises) binds it to the destination root, and no creation call is
    made for that full path. *)
Theorem C3_root_alias (svc_create : nat -> option string) (strc : structure)
    (root dest : string) (is_shared has_cb : bool)
    (Hin : str_mem root (names_at strc "") = true) (Hsep : count_sep root = 0) :
  let s := final (create_folder_structure svc_create strc root dest is_shared has_cb) in
  w_map s !! root = Some dest /\ Forall (fun c => c_path c <> root) (w_calls s).
Proof.
  destruct (create_folder_structure_sep_inv svc_create strc root dest is_shared has_cb Hin)
    as [Hc Hm].
  split.
  - rewrite Hm by exact Hsep. now apply seed_map_root.
  - eapply Forall_impl; [exact Hc|]. simpl. intros c Hc1 Heq. rewrite Heq in Hc1. lia.
Qed.

Lemma C3_root_alias_witness :
  let s := final (create_folder_structure fresh_ids scenario "A" "ROOT" false true) in
  w_map s !! "A" = Some "ROOT" /\ Forall (fun c => c_path c <> "A") (w_calls s).
Proof. apply (C3_root_alias fresh_ids scenario "A" "ROOT" false true); reflexivity. Defined.

(** C4 counterexample: with duplicate sibling names
    [{"": ["R"], "R": ["X", "X"]}] the full path ["R/X"] is created twice
    and its binding is replaced by the second id. *)
Lemma C4_duplicate_rebound :
  let s := final (create_folder_structure fresh_ids [("", ["R"]); ("R", ["X"; "X"])] "R" "D" false true) in
  map c_path (w_calls s) = ["R/X"; "R/X"] /\ w_map s !! "R/X" = Some "new1".
Proof. split; reflexivity. Qed.

(** C4 (amended): the writer has no skip-if-present check.  The inner
    loop over a key's names issues one creation call per name (the root's
    name at the empty path apart), in order and whatever the map already
    holds, so a name listed twice is created twice.  The final map (also
    when the run raises) is the seed map ([""] and, when aliased, the
    root name bound to the destination) updated by every successful
    creation call in the order issued, each binding its full path to the
    new id (last write wins); hence no entry of the seed is ever
    removed. *)
Theorem C4_map_is_replay (svc_create : nat -> option string) (strc : structure)
    (root dest : string) (is_shared has_cb : bool) :
  (forall path pid names s0, exists added,
     w_calls (create_each svc_create root is_shared has_cb path pid names s0) = app (w_calls s0) added /\
     map c_path added =
       map (fun nm => if String.eqb path "" then nm else path_join path nm)
         (List.filter (fun nm => negb (String.eqb path "" && String.eqb nm root)) names) /\
     Forall (fun c => c_parent c = pid) added) /\
  (let s := final (create_folder_structure svc_create strc root dest is_shared has_cb) in
   w_map s = replay (w_calls s) (seed_map strc root dest) /\
   (forall k, is_Some (seed_map strc root dest !! k) -> is_Some (w_map s !! k))).
Proof.
  split.
  - intros path pid names. induction names as [|nm rest IH]; intros s0; simpl.
    + exists []. split; [now rewrite app_nil_r|split; [reflexivity|constructor]].
    + destruct (String.eqb path "" && String.eqb nm root) eqn:Hskip; simpl; [apply IH|].
      match goal with |- context [create_each _ _ _ _ path pid rest ?s2] =>
        destruct (IH s2) as [added [Hc [Hp Hpar]]] end.
      exists ({| c_name := nm; c_parent := pid; c_all_drives := is_shared;
                 c_path := if String.eqb path "" then nm else path_join path nm;
                 c_result := svc_create (length (w_calls s0)) |} :: added).
      split; [rewrite Hc|split].
      * destruct (svc_create (length (w_calls s0))); unfold say; destruct has_cb; simpl;
          rewrite <- app_assoc; reflexivity.
      * simpl. f_equal. exact Hp.
      * constructor; [reflexivity|exact Hpar].
  - assert (H : replay_inv strc root dest
                  (final (create_folder_structure svc_create strc root dest is_shared has_cb))).
    { unfold create_folder_structure. apply process_paths_replay_inv.
      unfold replay_inv. rewrite say_map, say_calls. destruct has_cb; reflexivity. }
    split; [exact H|].
    intros k Hk. unfold replay_inv in H. rewrite H. now apply replay_keeps.
Qed.

(** C5 (no crash on a missing parent): with no progress callback, the
    structure [{"": ["R"], "X/Y": ["Z"]}] makes the writer raise (the
    warning calls the absent callback); and with a callback, the
    structure [{"": ["R"], "Q": ["Z"]}] makes it create ["Q/Z"] although
    ["Q"] has no entry. *)
Lemma C5_missing_parent_raises :
  (exists s, create_folder_structure fresh_ids [("", ["R"]); ("X/Y", ["Z"])] "R" "D" false false
             = Raised s) /\
  (let s := final (create_folder_structure fresh_ids [("", ["R"]); ("Q", ["Z"])] "R" "D" false true) in
   map c_path (w_calls s) = ["Q/Z"] /\ w_map s !! "Q" = None).
Proof. split; [eexists; reflexivity | split; reflexivity]. Qed.

(** C9 counterexample: a second name ["a/b"] at the empty path is bound
    in the map, through the key ["a"]. *)
Lemma C9_slash_sibling_bound :
  let s := final (create_folder_structure fresh_ids [("", ["R"; "a/b"]); ("a", ["b"])] "R" "D" false true) in
  map c_path (w_calls s) = ["a/b"] /\ w_map s !! "a/b" = Some "new0".
Proof. split; reflexivity. Qed.

(** C9 (amended): when the root's name is recorded at the empty path, the
    writer issues no creation call from the empty-path entry (every call's
    full path contains a separator), so no other name recorded there that
    contains no separator is created or added to the map. *)
Theorem C9_root_level_skipped (svc_create : nat -> option string) (strc : structure)
    (root dest x : string) (is_shared has_cb : bool)
    (Hin : str_mem root (names_at strc "") = true)
    (Hx : In x (names_at strc "")) (Hsep : count_sep x = 0)
    (Hxr : x <> root) (Hxe : x <> "") :
  let s := final (create_folder_structure svc_create strc root dest is_shared has_cb) in
  Forall (fun c => 1 <= count_sep (c_path c)) (w_calls s) /\
  Forall (fun c => c_path c <> x) (w_calls s) /\ w_map s !! x = None.
Proof.
  destruct (create_folder_structure_sep_inv svc_create strc root dest is_shared has_cb Hin)
    as [Hc Hm].
  split; [exact Hc|]. split.
  - eapply Forall_impl; [exact Hc|]. simpl. intros c Hc1 Heq. rewrite Heq in Hc1. lia.
  - rewrite Hm by exact Hsep. now apply seed_map_other.
Qed.

Lemma C9_root_level_skipped_witness :
  let s := final (create_folder_structure fresh_ids [("", ["R"; "S"]); ("R", ["T"])] "R" "D" false true) in
  Forall (fun c => 1 <= count_sep (c_path c)) (w_calls s) /\
  Forall (fun c => c_path c <> "S") (w_calls s) /\ w_map s !! "S" = None.
Proof.
  apply (C9_root_level_skipped fresh_ids [("", ["R"; "S"]); ("R", ["T"])] "R" "D" "S" false true);
    [reflexivity | simpl; auto | reflexivity | discriminate | discriminate].
Defined.

(* ------------------------------------------------------------------ *)
(** ** Facts about the reader *)

Lemma rsay_struct (has_cb : bool) (m : msg) (s : rstate) :
  r_struct (rsay has_cb m s) = r_struct s.
Proof. unfold rsay. now destruct has_cb. Qed.

Lemma rsay_lcalls (has_cb : bool) (m : msg) (s : rstate) :
  r_lcalls (rsay has_cb m s) = r_lcalls s.
Proof. unfold rsay. now destruct has_cb. Qed.

Lemma rsay_log (has_cb : bool) (m : msg) (s : rstate) :
  r_log (rsay has_cb m s) = app (r_log s) (if has_cb then [m] else []).
Proof. unfold rsay. destruct has_cb; simpl; [reflexivity|now rewrite app_nil_r]. Qed.

Lemma names_at_append (p x k nm : string) (st : structure) :
  In nm (names_at (st_append p x st) k) -> In nm (names_at st k) \/ (k = p /\ nm = x).
Proof.
  unfold names_at. induction st as [|[k' v] r IH]; simpl.
  - destruct (String.eqb k p) eqn:E; simpl; [|tauto].
    apply String.eqb_eq in E. intros [<-|[]]. now right.
  - destruct (String.eqb p k') eqn:Ep; simpl.
    + apply String.eqb_eq in Ep. subst k'.
      destruct (String.eqb k p) eqn:E; [|tauto].
      apply String.eqb_eq in E. subst k. rewrite in_app_iff. simpl. intuition.
    + destruct (String.eqb k k'); [tauto|exact IH].
Qed.

Lemma names_at_append_here (p x : string) (st : structure) :
  In x (names_at (st_append p x st) p).
Proof.
  unfold names_at. induction st as [|[k' v] r IH]; simpl.
  - rewrite String.eqb_refl. now left.
  - destruct (String.eqb p k') eqn:Ep; simpl.
    + rewrite Ep. apply in_app_iff. right. now left.
    + rewrite Ep. exact IH.
Qed.

Lemma list_children_calls (svc_list : list_params -> lresult) (p q : list_params) :
  In q (fst (list_children svc_list p)) -> lp_q q = lp_q p.
Proof.
  unfold list_children. destruct (svc_list p) as [items|e]; simpl; [intros [<-|[]]; reflexivity|].
  destruct (contains _ e); simpl; intros [<-|H]; try reflexivity.
  - destruct H as [<-|[]]; reflexivity.
  - destruct H.
Qed.

Lemma list_children_ok (svc_list : list_params -> lresult) (p : list_params) items :
  snd (list_children svc_list p) = LOk items ->
  exists p', lp_q p' = lp_q p /\ svc_list p' = LOk items.
Proof.
  unfold list_children. destruct (svc_list p) as [its|e] eqn:E; simpl.
  - intros [= <-]. now exists p.
  - destruct (contains _ e); simpl; [|discriminate]. intros H. now exists (legacy p).
Qed.

Lemma list_children_len (svc_list : list_params -> lresult) (p : list_params) :
  length (fst (list_children svc_list p)) <= 2.
Proof.
  unfold list_children. destruct (svc_list p); simpl; [lia|]. destruct (contains _ _); simpl; lia.
Qed.

Lemma mk_list_params_q (is_shared : bool) (drive_id : option string) (fid : string) :
  lp_q (mk_list_params is_shared drive_id fid) = query_for fid.
Proof. unfold mk_list_params. now destruct is_shared. Qed.

Section ReaderFacts.
Variable svc_get : get_params -> option rfile.
Variable svc_list : list_params -> lresult.
Variable is_shared : bool.
Variable drive_id : option string.
Variable has_cb : bool.

(** The listing service honours the [trashed = false] of the reader's
    query: a listing for [query_for fid] returns no trashed entry. *)
Hypothesis honours_trashed : forall fid p items it,
  lp_q p = query_for fid -> svc_list p = LOk items -> In it items -> f_trashed it = false.

Local Abbreviation gfs := (get_folder_structure svc_get svc_list is_shared drive_id has_cb).

(** A folder-typed, non-trashed entry of a listing of the reader's query. *)
Definition child_folder_id (cid : string) : Prop :=
  exists fid p items it,
    lp_q p = query_for fid /\ svc_list p = LOk items /\ In it items /\
    f_mime it = folder_mime /\ f_trashed it = false /\ f_id it = cid.

Definition name_of (fid nm : string) : Prop :=
  exists fl, svc_get (get_params_for is_shared fid) = Some fl /\ f_name fl = nm.

(** What a call [gfs f fid path s] may add: its own folder's name at
    [path], names of listed child folders, and listings of [fid] or of
    listed child folders. *)
Definition read_inv (fid path : string) (s s' : rstate) : Prop :=
  (forall k nm, In nm (names_at (r_struct s') k) ->
     In nm (names_at (r_struct s) k) \/ (k = path /\ name_of fid nm) \/
     (exists cid, child_folder_id cid /\ name_of cid nm)) /\
  (forall p, In p (r_lcalls s') ->
     In p (r_lcalls s) \/ lp_q p = query_for fid \/
     (exists cid, child_folder_id cid /\ lp_q p = query_for cid)).

Lemma read_inv_refl_say fid path m s : read_inv fid path s (rsay has_cb m s).
Proof.
  split; [rewrite rsay_struct; auto|rewrite rsay_lcalls; auto].
Qed.

Lemma get_folder_structure_inv f : forall fid path s s',
  gfs f fid path s = Some s' -> read_inv fid path s s'.
Proof.
  induction f as [|f IH]; intros fid path s s' Hrun; [discriminate|].
  cbn -[list_children mk_list_params get_params_for rsay] in Hrun.
  destruct (svc_get (get_params_for is_shared fid)) as [folder|] eqn:Hg.
  2:{ injection Hrun as <-. apply read_inv_refl_say. }
  set (lc := list_children svc_list (mk_list_params is_shared drive_id fid)) in Hrun.
  set (s2 := r_add_lcalls (fst lc)
               (r_set_struct (st_append path (f_name folder) (r_struct s)) s)) in Hrun.
  assert (H2 : read_inv fid path s s2).
  { split.
    - intros k nm Hin. simpl in Hin. apply names_at_append in Hin as [Hin|[-> ->]]; [now left|].
      right; left. split; [reflexivity|]. now exists folder.
    - intros p Hin. simpl in Hin. apply in_app_iff in Hin as [Hin|Hin]; [now left|].
      right; left. apply list_children_calls in Hin. now rewrite Hin, mk_list_params_q. }
  destruct (snd lc) as [items|e] eqn:Hl.
  2:{ injection Hrun as <-. destruct H2 as [Hn Hc].
      split; [rewrite rsay_struct; exact Hn|rewrite rsay_lcalls; exact Hc]. }
  destruct (list_children_ok svc_list _ items Hl) as [p' [Hq' Hl']].
  rewrite mk_list_params_q in Hq'.
  assert (Hitems : forall it, In it items -> f_mime it = folder_mime -> child_folder_id (f_id it)).
  { intros it Hin Hm. exists fid, p', items, it.
    repeat split; auto. eapply honours_trashed; eauto. }
  set (cur := if String.eqb path "" then f_name folder else path_join path (f_name folder)) in Hrun.
  assert (H3 : read_inv fid path s (rsay has_cb (MReading cur) s2)).
  { destruct H2 as [Hn Hc]. split; [rewrite rsay_struct; exact Hn|rewrite rsay_lcalls; exact Hc]. }
  revert Hrun H3. generalize (rsay has_cb (MReading cur) s2) as s3.
  clear Hl Hl' Hq' p'. induction items as [|it rest IHit]; intros s3 Hrun H3.
  - injection Hrun as <-. exact H3.
  - assert (Hrest : forall it', In it' rest -> f_mime it' = folder_mime -> child_folder_id (f_id it'))
      by (intros; apply Hitems; [right|]; auto).
    simpl in Hrun. destruct (String.eqb (f_mime it) folder_mime) eqn:Hm.
    + destruct (gfs f (f_id it) cur s3) as [s4|] eqn:Hc; [|discriminate].
      apply (IHit Hrest s4 Hrun).
      apply IH in Hc as [Hn4 Hc4]. destruct H3 as [Hn3 Hc3].
      apply String.eqb_eq in Hm.
      assert (Hcid : child_folder_id (f_id it)) by (apply Hitems; [left|]; auto).
      split.
      * intros k nm Hin. apply Hn4 in Hin as [Hin|[[_ Hnm]|Hin]]; [now apply Hn3| |auto].
        right; right. now exists (f_id it).
      * intros p Hin. apply Hc4 in Hin as [Hin|[Hin|Hin]]; [now apply Hc3| |auto].
        right; right. now exists (f_id it).
    + exact (IHit Hrest s3 Hrun H3).
Qed.
End ReaderFacts.

(** Every page request of a loop that ends is recorded after the calls
    made before it, starting with the request for the initial token. *)
Lemma page_loop_calls (svc_drives svc_teamdrives : option string -> option (list string * option string))
    (f : nat) : forall team tok acc cs,
  match page_loop svc_drives svc_teamdrives (S f) team tok acc cs with
  | LoopDone _ cs' | LoopFailed _ _ cs' =>
      exists r, cs' = app cs ((if team then TeamDrivesList tok else DrivesList tok) :: r)
  | LoopFuel => True
  end.
Proof.
  assert (Hunfold : forall g team tok acc cs,
    page_loop svc_drives svc_teamdrives (S g) team tok acc cs =
    match (if team then svc_teamdrives else svc_drives) tok with
    | None => LoopFailed acc tok (app cs [if team then TeamDrivesList tok else DrivesList tok])
    | Some (ds, next) =>
        if truthy next
        then page_loop svc_drives svc_teamdrives g team next (app acc ds)
               (app cs [if team then TeamDrivesList tok else DrivesList tok])
        else LoopDone (app acc ds) (app cs [if team then TeamDrivesList tok else DrivesList tok])
    end) by reflexivity.
  induction f as [|f IH]; intros team tok acc cs; rewrite Hunfold.
  - destruct ((if team then svc_teamdrives else svc_drives) tok) as [[ds next]|];
      [destruct (truthy next)|]; try exact I; now exists [].
  - destruct ((if team then svc_teamdrives else svc_drives) tok) as [[ds next]|];
      [destruct (truthy next)|]; try (now exists []).
    specialize (IH team next (app acc ds) (app cs [if team then TeamDrivesList tok else DrivesList tok])).
    destruct (page_loop _ _ (S f) team next _ _) as [a c|a t c|]; try exact I;
      destruct IH as [r ->]; exists ((if team then TeamDrivesList next else DrivesList next) :: r);
      now rewrite <- app_assoc.
Qed.

(* ------------------------------------------------------------------ *)
(** ** Claims about the reader *)

(** C6 (per-node read errors are contained): when the metadata fetch of a
    node fails, or it succeeds and the listing of its children fails
    (after the fallback), the call returns normally: the error is
    reported through the callback (when there is one), the structure
    gathered so far is kept (at most the node's own name is added), and
    nothing below the node is read (only the node's own listing calls are
    issued). *)
Theorem C6_read_error_contained (svc_get : get_params -> option rfile)
    (svc_list : list_params -> lresult) (is_shared : bool) (drive_id : option string)
    (has_cb : bool) (f : nat) (fid path : string) (s : rstate)
    (Hfail : svc_get (get_params_for is_shared fid) = None \/
             exists folder e, svc_get (get_params_for is_shared fid) = Some folder /\
               snd (list_children svc_list (mk_list_params is_shared drive_id fid)) = LErr e) :
  exists s', get_folder_structure svc_get svc_list is_shared drive_id has_cb (S f) fid path s = Some s' /\
    r_log s' = app (r_log s) (if has_cb then [MReadError path fid] else []) /\
    (r_struct s' = r_struct s \/
     exists folder, svc_get (get_params_for is_shared fid) = Some folder /\
       r_struct s' = st_append path (f_name folder) (r_struct s)) /\
    (exists ls, r_lcalls s' = app (r_lcalls s) ls /\ length ls <= 2).
Proof.
  cbn -[list_children mk_list_params get_params_for rsay].
  destruct Hfail as [Hg|[folder [e [Hg Hl]]]]; rewrite Hg.
  - eexists. split; [reflexivity|]. rewrite rsay_log, rsay_struct, rsay_lcalls.
    split; [reflexivity|]. split; [now left|]. exists []. split; [now rewrite app_nil_r|simpl; lia].
  - cbn -[list_children mk_list_params get_params_for rsay]. rewrite Hl.
    eexists. split; [reflexivity|]. rewrite rsay_log, rsay_struct, rsay_lcalls. simpl.
    split; [reflexivity|]. split; [right; now exists folder|].
    eexists. split; [reflexivity|apply list_children_len].
Qed.

Lemma C6_read_error_contained_witness :
  exists s', get_folder_structure demo_get demo_list_fail false None true 1 "C" "Root" empty_rstate = Some s' /\
    r_log s' = app (r_log empty_rstate) [MReadError "Root" "C"] /\
    (r_struct s' = r_struct empty_rstate \/
     exists folder, demo_get (get_params_for false "C") = Some folder /\
       r_struct s' = st_append "Root" (f_name folder) (r_struct empty_rstate)) /\
    (exists ls, r_lcalls s' = app (r_lcalls empty_rstate) ls /\ length ls <= 2).
Proof.
  apply (C6_read_error_contained demo_get demo_list_fail false None true 0 "C" "Root" empty_rstate).
  right. exists f_docs, "Internal error". split; reflexivity.
Defined.

(** C7 counterexample: the listing fallback is not the only retry:
    when [drives().list] raises, [get_shared_drives] issues the same
    request through [teamdrives().list]. *)
Lemma C7_shared_drives_fallback :
  get_shared_drives drives_raise teamdrives_one 5 = Some ([DrivesList None; TeamDrivesList None], ["Team"]).
Proof. reflexivity. Qed.

(** C8 counterexample: started on a file (["N"], [notes.txt], of type
    [text/plain]), the reader records its name at the empty path, and
    that name is not the name of any folder-typed listed child. *)
Lemma C8_unchecked_start_name :
  option_map r_struct (get_folder_structure demo_get demo_list false None true 2 "N" "" empty_rstate)
    = Some [("", ["notes.txt"])] /\
  f_mime f_note <> folder_mime /\
  ~ (exists cid, child_folder_id demo_list cid /\ name_of demo_get false cid "notes.txt").
Proof.
  split; [reflexivity|]. split; [discriminate|].
  intros [cid [[fid [p [items [it (Hq & Hl & Hin & Hm & Ht & Hid)]]]] [fl [Hg Hn]]]].
  unfold demo_list in Hl. destruct (String.eqb (lp_q p) (query_for "R")); injection Hl as <-.
  - destruct Hin as [<-|[<-|[]]]; [|discriminate].
    subst cid. simpl in Hg. injection Hg as <-. discriminate.
  - destruct Hin.
Qed.

(** C8 (amended): provided the listing service honours the query's
    [trashed = false], a read started at [fid] records only the starting
    folder's own name (at the empty path, with no type or trash check)
    and the names of children listed as folder-typed and non-trashed; and
    it lists only [fid] and such children, i.e. it recurses only into
    them. *)
Theorem C8_recorded_names (svc_get : get_params -> option rfile)
    (svc_list : list_params -> lresult) (is_shared : bool) (drive_id : option string)
    (has_cb : bool)
    (honours_trashed : forall fid p items it,
       lp_q p = query_for fid -> svc_list p = LOk items -> In it items -> f_trashed it = false)
    (f : nat) (fid : string) (s' : rstate)
    (Hrun : get_folder_structure svc_get svc_list is_shared drive_id has_cb f fid "" empty_rstate = Some s') :
  (forall k nm, In nm (names_at (r_struct s') k) ->
     (k = "" /\ name_of svc_get is_shared fid nm) \/
     exists cid, child_folder_id svc_list cid /\ name_of svc_get is_shared cid nm) /\
  (forall p, In p (r_lcalls s') ->
     lp_q p = query_for fid \/ exists cid, child_folder_id svc_list cid /\ lp_q p = query_for cid).
Proof.
  destruct (get_folder_structure_inv svc_get svc_list is_shared drive_id has_cb honours_trashed
              f fid "" empty_rstate s' Hrun) as [Hn Hc].
  split.
  - intros k nm Hin. apply Hn in Hin as [[]|[H|H]]; auto.
  - intros p Hin. apply Hc in Hin as [[]|H]; auto.
Qed.

Lemma C8_recorded_names_witness :
  exists s', get_folder_structure demo_get demo_list false None true 3 "R" "" empty_rstate = Some s' /\
  (forall k nm, In nm (names_at (r_struct s') k) ->
     (k = "" /\ name_of demo_get false "R" nm) \/
     exists cid, child_folder_id demo_list cid /\ name_of demo_get false cid nm) /\
  (forall p, In p (r_lcalls s') ->
     lp_q p = query_for "R" \/ exists cid, child_folder_id demo_list cid /\ lp_q p = query_for cid).
Proof.
  assert (Hq : forall fid p items it, lp_q p = query_for fid -> demo_list p = LOk items ->
                 In it items -> f_trashed it = false).
  { intros fid p items it _ Hl Hin. unfold demo_list in Hl.
    destruct (String.eqb (lp_q p) (query_for "R")); injection Hl as <-;
      simpl in Hin; intuition (subst; reflexivity). }
  eexists. split; [reflexivity|].
  exact (C8_recorded_names demo_get demo_list false None true Hq 3 "R" _ eq_refl).
Defined.

(** C10 (the name is recorded before the listing): when a folder's
    metadata is read but listing its children fails, the returned
    structure is the input one with the folder's name appended under
    its parent path. *)
Theorem C10_name_before_listing (svc_get : get_params -> option rfile)
    (svc_list : list_params -> lresult) (is_shared : bool) (drive_id : option string)
    (has_cb : bool) (f : nat) (fid path : string) (s : rstate) (folder : rfile) (e : string)
    (Hg : svc_get (get_params_for is_shared fid) = Some folder)
    (Hl : snd (list_children svc_list (mk_list_params is_shared drive_id fid)) = LErr e) :
  exists s', get_folder_structure svc_get svc_list is_shared drive_id has_cb (S f) fid path s = Some s' /\
    r_struct s' = st_append path (f_name folder) (r_struct s) /\
    In (f_name folder) (names_at (r_struct s') path).
Proof.
  cbn -[list_children mk_list_params get_params_for rsay]. rewrite Hg.
  cbn -[list_children mk_list_params get_params_for rsay]. rewrite Hl.
  eexists. split; [reflexivity|]. rewrite rsay_struct. simpl.
  split; [reflexivity|apply names_at_append_here].
Qed.

Lemma C10_name_before_listing_witness :
  exists s', get_folder_structure demo_get demo_list_fail false None true 1 "C" "Root" empty_rstate = Some s' /\
    r_struct s' = st_append "Root" (f_name f_docs) (r_struct empty_rstate) /\
    In (f_name f_docs) (names_at (r_struct s') "Root").
Proof.
  apply (C10_name_before_listing demo_get demo_list_fail false None true 0 "C" "Root" empty_rstate
           f_docs "Internal error"); reflexivity.
Defined.

(* ------------------------------------------------------------------ *)
(** ** Sorting and paths *)

Lemma insert_by_depth_on (x : string) (l : list string) :
  insert_by_depth x l = insert_on count_sep x l.
Proof. induction l as [|h t IH]; simpl; [reflexivity|]. now rewrite IH. Qed.

Lemma sort_by_depth_on (l : list string) : sort_by_depth l = sort_on count_sep l.
Proof.
  induction l as [|x l IH]; [reflexivity|].
  unfold sort_by_depth, sort_on in *. simpl. rewrite IH. apply insert_by_depth_on.
Qed.

Lemma insert_on_perm (key : string -> nat) (x : string) (l : list string) :
  Permutation (insert_on key x l) (x :: l).
Proof.
  induction l as [|h t IH]; simpl; [reflexivity|].
  destruct (Nat.leb (key x) (key h)); [reflexivity|].
  rewrite IH. apply perm_swap.
Qed.

Lemma sort_on_perm (key : string -> nat) (l : list string) : Permutation (sort_on key l) l.
Proof.
  induction l as [|x l IH]; [reflexivity|]. unfold sort_on in *. simpl.
  rewrite insert_on_perm. now apply perm_skip.
Qed.

Lemma insert_on_sorted (key : string -> nat) (x : string) (l : list string) :
  StronglySorted (fun a b => key a <= key b) l ->
  StronglySorted (fun a b => key a <= key b) (insert_on key x l).
Proof.
  induction l as [|h t IH]; intros Hs; simpl; [repeat constructor|].
  apply StronglySorted_inv in Hs as [Ht Hh].
  destruct (Nat.leb (key x) (key h)) eqn:E.
  - apply Nat.leb_le in E. constructor; [now constructor|].
    constructor; [exact E|]. eapply Forall_impl; [exact Hh|]. simpl. intros; lia.
  - apply Nat.leb_gt in E. constructor; [now apply IH|].
    eapply Permutation_Forall; [symmetry; apply insert_on_perm|].
    constructor; [lia|exact Hh].
Qed.

Lemma sort_on_sorted (key : string -> nat) (l : list string) :
  StronglySorted (fun a b => key a <= key b) (sort_on key l).
Proof.
  induction l as [|x l IH]; [constructor|]. unfold sort_on in *. simpl.
  now apply insert_on_sorted.
Qed.

Lemma insert_on_filter (key : string -> nat) (d : nat) (x : string) (l : list string) :
  List.filter (fun y => Nat.eqb (key y) d) (insert_on key x l) =
  if Nat.eqb (key x) d then x :: List.filter (fun y => Nat.eqb (key y) d) l
  else List.filter (fun y => Nat.eqb (key y) d) l.
Proof.
  induction l as [|h t IH]; simpl; [now destruct (Nat.eqb (key x) d)|].
  destruct (Nat.leb (key x) (key h)) eqn:E; simpl; [reflexivity|].
  rewrite IH. apply Nat.leb_gt in E.
  destruct (Nat.eqb (key h) d) eqn:Eh, (Nat.eqb (key x) d) eqn:Ex; try reflexivity.
  apply Nat.eqb_eq in Eh, Ex. lia.
Qed.

Lemma sort_on_filter (key : string -> nat) (d : nat) (l : list string) :
  List.filter (fun y => Nat.eqb (key y) d) (sort_on key l) =
  List.filter (fun y => Nat.eqb (key y) d) l.
Proof.
  induction l as [|x l IH]; [reflexivity|]. unfold sort_on in *. simpl.
  rewrite insert_on_filter, IH. reflexivity.
Qed.

(** X1: [sorted(structure.keys(), key=lambda x: x.count(os.sep))]
    reorders the keys (a permutation) into non-decreasing separator
    count. *)
Theorem X1_sort_by_depth_sorted_perm (l : list string) :
  Permutation (sort_by_depth l) l /\
  StronglySorted (fun a b => count_sep a <= count_sep b) (sort_by_depth l).
Proof. rewrite sort_by_depth_on. split; [apply sort_on_perm|apply sort_on_sorted]. Qed.

(** X2: the sort is stable: the keys of any one depth keep the order they
    have in the structure. *)
Theorem X2_sort_by_depth_stable (l : list string) (d : nat) :
  List.filter (fun y => Nat.eqb (count_sep y) d) (sort_by_depth l) =
  List.filter (fun y => Nat.eqb (count_sep y) d) l.
Proof. rewrite sort_by_depth_on. apply sort_on_filter. Qed.

Lemma head_no_sep (b : string) : count_sep b = 0 -> head_through_last_sep b = "".
Proof.
  induction b as [|c b IH]; simpl; [reflexivity|].
  destruct (is_sep c) eqn:E; simpl; [lia|]. intros Hb. rewrite IH by exact Hb. reflexivity.
Qed.

Lemma head_join (a b : string) :
  count_sep b = 0 -> head_through_last_sep (String.append a (String sep b)) = String.append a "/".
Proof.
  intros Hb. induction a as [|c a IH]; simpl.
  - rewrite head_no_sep by exact Hb. reflexivity.
  - rewrite IH. destruct a; reflexivity.
Qed.

Lemma all_sep_append (a b : string) : all_sep (String.append a b) = all_sep a && all_sep b.
Proof. induction a as [|c a IH]; simpl; [reflexivity|]. rewrite IH. apply andb_assoc. Qed.

Lemma all_sep_not_ending (a : string) :
  a <> "" -> ends_with_sep a = false -> all_sep a = false.
Proof.
  induction a as [|c a IH]; [congruence|]. intros _.
  destruct a as [|c' a'].
  - simpl. intros H. now rewrite H.
  - intros H. change (ends_with_sep (String c' a') = false) in H.
    change (is_sep c && all_sep (String c' a') = false).
    rewrite (IH ltac:(discriminate) H). apply andb_false_r.
Qed.

Lemma rstrip_join (a : string) : ends_with_sep a = false -> rstrip_sep (String.append a "/") = a.
Proof.
  induction a as [|c a IH]; intros H; [reflexivity|].
  assert (Ha : ends_with_sep a = false) by (destruct a; [reflexivity|exact H]).
  simpl. rewrite (IH Ha). destruct a as [|c' a'].
  - simpl in H. rewrite H. reflexivity.
  - reflexivity.
Qed.

(** X3: joining a separator-free name under a non-empty path that does
    not end in ["/"] adds exactly one separator, and [os.path.dirname]
    gives the path back: the parent path of [join(path, name)] is
    [path]. *)
Theorem X3_join_dirname (a b : string)
    (Ha : a <> "") (Hend : ends_with_sep a = false) (Hb : count_sep b = 0) :
  dirname (path_join a b) = a /\ count_sep (path_join a b) = S (count_sep a).
Proof.
  assert (Hj : path_join a b = String.append a (String sep b)).
  { unfold path_join.
    assert (Hs : starts_with_sep b = false).
    { destruct b as [|c b]; [reflexivity|]. simpl in Hb. simpl. now destruct (is_sep c). }
    rewrite Hs. apply String.eqb_neq in Ha. now rewrite Ha, Hend. }
  rewrite Hj. split.
  - unfold dirname. rewrite head_join by exact Hb.
    assert (Hne : String.eqb (String.append a "/") "" = false) by (destruct a; [congruence|reflexivity]).
    rewrite Hne, all_sep_append, (all_sep_not_ending a Ha Hend). simpl.
    now apply rstrip_join.
  - rewrite count_sep_append. simpl. rewrite Hb. lia.
Qed.

Lemma X3_join_dirname_witness :
  dirname (path_join "A/B" "D") = "A/B" /\ count_sep (path_join "A/B" "D") = S (count_sep "A/B").
Proof. apply X3_join_dirname; [discriminate|reflexivity|reflexivity]. Defined.

(* ------------------------------------------------------------------ *)
(** ** More about the writer *)

Lemma process_paths_cb_returns (svc_create : nat -> option string) (strc : structure)
    (root dest : string) (is_shared : bool) (paths : list string) :
  forall s, exists s', process_paths svc_create strc root dest is_shared true paths s = Returned s'.
Proof.
  induction paths as [|path rest IH]; intros s; simpl; [eauto|].
  destruct (String.eqb path "" && str_mem root (names_at strc path)); [apply IH|].
  destruct (w_map _ !! _); [apply IH|]. destruct (String.eqb path ""); apply IH.
Qed.

(** X4: with a progress callback, the writer never raises: every run
    returns its map (the only exception path is the unguarded warning
    call, which needs the callback to be absent). *)
Theorem X4_writer_with_callback_returns (svc_create : nat -> option string) (strc : structure)
    (root dest : string) (is_shared : bool) :
  exists s, create_folder_structure svc_create strc root dest is_shared true = Returned s.
Proof. unfold create_folder_structure. apply process_paths_cb_returns. Qed.

(** Where the calls of one inner loop come from. *)
Definition call_from (root path : string) (names : list string) (c : call) : Prop :=
  In (c_name c) names /\
  c_path c = (if String.eqb path "" then c_name c else path_join path (c_name c)) /\
  ~ (path = "" /\ c_name c = root).

Lemma create_each_from (svc_create : nat -> option string) (root : string)
    (is_shared has_cb : bool) (path pid : string) (names : list string) :
  forall s c, In c (w_calls (create_each svc_create root is_shared has_cb path pid names s)) ->
  In c (w_calls s) \/ call_from root path names c.
Proof.
  induction names as [|nm rest IH]; intros s c Hin; simpl in Hin; [now left|].
  destruct (String.eqb path "" && String.eqb nm root) eqn:Hskip.
  - apply IH in Hin as [H|(H1 & H2 & H3)]; [now left|right; repeat split; auto; now right].
  - apply IH in Hin as [H|(H1 & H2 & H3)]; [|right; repeat split; auto; now right].
    assert (Hc : In c (app (w_calls s)
                  [{| c_name := nm; c_parent := pid; c_all_drives := is_shared;
                      c_path := if String.eqb path "" then nm else path_join path nm;
                      c_result := svc_create (length (w_calls s)) |}])).
    { destruct (svc_create (length (w_calls s))); unfold say in H;
        destruct has_cb; exact H. }
    apply in_app_iff in Hc as [Hc|[<-|[]]]; [now left|right].
    unfold call_from. simpl. repeat split; [now left|].
    intros [-> ->]. rewrite !String.eqb_refl in Hskip. discriminate.
Qed.

Lemma process_paths_from (svc_create : nat -> option string) (strc : structure)
    (root dest : string) (is_shared has_cb : bool) (paths : list string) :
  forall s c, In c (w_calls (final (process_paths svc_create strc root dest is_shared has_cb paths s))) ->
  In c (w_calls s) \/ exists k, In k paths /\ call_from root k (names_at strc k) c.
Proof.
  induction paths as [|path rest IH]; intros s c Hin; simpl in Hin; [now left|].
  assert (Hlift : forall s1, w_calls s1 = w_calls s ->
            In c (w_calls (final (process_paths svc_create strc root dest is_shared has_cb rest s1))) ->
            In c (w_calls s) \/ exists k, In k (path :: rest) /\ call_from root k (names_at strc k) c).
  { intros s1 Hs1 H. apply IH in H as [H|[k [Hk Hf]]]; [left; congruence|].
    right. exists k. split; [now right|exact Hf]. }
  assert (Hcreate : forall s1 pid, w_calls s1 = w_calls s ->
            In c (w_calls (final (process_paths svc_create strc root dest is_shared has_cb rest
                    (create_each svc_create root is_shared has_cb path pid (names_at strc path) s1)))) ->
            In c (w_calls s) \/ exists k, In k (path :: rest) /\ call_from root k (names_at strc k) c).
  { intros s1 pid Hs1 H. apply IH in H as [H|[k [Hk Hf]]].
    - apply create_each_from in H as [H|H]; [left; congruence|].
      right. exists path. split; [now left|exact H].
    - right. exists k. split; [now right|exact Hf]. }
  assert (Hsay : forall m, w_calls (say has_cb m s) = w_calls s) by (intros; apply say_calls).
  destruct (String.eqb path "" && str_mem root (names_at strc path)); [now apply (Hlift s)|].
  destruct (w_map _ !! _) as [pid|]; [eapply Hcreate; [apply Hsay|exact Hin]|].
  destruct (String.eqb path ""); [eapply Hcreate; [apply Hsay|exact Hin]|].
  destruct has_cb; simpl in Hin; [eapply Hlift; [|exact Hin]; reflexivity|].
  left. exact Hin.
Qed.

(** X5: the writer only creates recorded folders: every creation call is
    for a name listed under some key of the structure, with full path
    [join(key, name)] (the name itself under the empty key), and never for
    the root's name under the empty key. *)
Theorem X5_calls_from_structure (svc_create : nat -> option string) (strc : structure)
    (root dest : string) (is_shared has_cb : bool) (c : call)
    (Hin : In c (w_calls (final (create_folder_structure svc_create strc root dest is_shared has_cb)))) :
  exists k, In k (st_keys strc) /\ In (c_name c) (names_at strc k) /\
    c_path c = (if String.eqb k "" then c_name c else path_join k (c_name c)) /\
    ~ (k = "" /\ c_name c = root).
Proof.
  unfold create_folder_structure in Hin.
  apply process_paths_from in Hin as [H|[k [Hk (H1 & H2 & H3)]]].
  - rewrite say_calls in H. destruct has_cb; destruct H.
  - exists k. repeat split; auto.
    eapply Permutation_in; [|exact Hk]. rewrite sort_by_depth_on. apply sort_on_perm.
Qed.

Lemma X5_calls_from_structure_witness :
  exists k, In k (st_keys scenario) /\ In "D" (names_at scenario k) /\
    "A/B/D" = (if String.eqb k "" then "D" else path_join k "D") /\ ~ (k = "" /\ "D" = "A").
Proof.
  exact (X5_calls_from_structure fresh_ids scenario "A" "ROOT" false true
           {| c_name := "D"; c_parent := "ROOT"; c_all_drives := false; c_path := "A/B/D";
              c_result := Some "new2" |}
           ltac:(vm_compute; right; right; left; reflexivity)).
Defined.

(* ------------------------------------------------------------------ *)
(** ** More about the reader *)

(** The number of folder names recorded in a structure. *)
Definition st_size (st : structure) : nat := list_sum (map (fun e => length (snd e)) st).

Lemma st_size_append (p x : string) (st : structure) :
  st_size (st_append p x st) = S (st_size st).
Proof.
  unfold st_size. induction st as [|[k v] r IH]; simpl; [reflexivity|].
  destruct (String.eqb p k); simpl.
  - rewrite length_app. simpl. lia.
  - rewrite IH. lia.
Qed.

Lemma st_keys_append (p x : string) (st : structure) :
  exists ks, st_keys (st_append p x st) = app (st_keys st) ks.
Proof.
  unfold st_keys. induction st as [|[k v] r [ks IH]]; simpl; [now exists [p]|].
  destruct (String.eqb p k); simpl.
  - exists []. now rewrite app_nil_r.
  - exists ks. now rewrite IH.
Qed.

Lemma names_at_st_append (p x k : string) (st : structure) :
  names_at (st_append p x st) k = app (names_at st k) (if String.eqb k p then [x] else []).
Proof.
  unfold names_at. induction st as [|[k' v] r IH]; simpl.
  - now destruct (String.eqb k p).
  - destruct (String.eqb p k') eqn:Ep; simpl.
    + apply String.eqb_eq in Ep. subst k'. destruct (String.eqb k p); [reflexivity|now rewrite app_nil_r].
    + destruct (String.eqb k k') eqn:Ek; [|exact IH].
      apply String.eqb_eq in Ek. subst k'. rewrite String.eqb_sym, Ep. now rewrite app_nil_r.
Qed.

Section ReaderRuns.
Variable svc_get : get_params -> option rfile.
Variable svc_list : list_params -> lresult.
Variable is_shared : bool.
Variable drive_id : option string.
Variable has_cb : bool.

Local Abbreviation gfs := (get_folder_structure svc_get svc_list is_shared drive_id has_cb).

(** A relation between reader states that holds across a report, across
    the recording of one name together with at most two listing calls,
    and that composes holds between the states before and after any
    complete run of the reader. *)
Variable R : rstate -> rstate -> Prop.
Hypothesis R_trans : forall s1 s2 s3, R s1 s2 -> R s2 s3 -> R s1 s3.
Hypothesis R_say : forall m s, R s (rsay has_cb m s).
Hypothesis R_read : forall s path nm ls, length ls <= 2 ->
  R s (r_add_lcalls ls (r_set_struct (st_append path nm (r_struct s)) s)).

Lemma get_folder_structure_rel f : forall fid path s s',
  gfs f fid path s = Some s' -> R s s'.
Proof.
  induction f as [|f IH]; intros fid path s s' Hrun; [discriminate|].
  cbn -[list_children mk_list_params get_params_for rsay] in Hrun.
  destruct (svc_get (get_params_for is_shared fid)) as [folder|].
  2:{ injection Hrun as <-. apply R_say. }
  set (lc := list_children svc_list (mk_list_params is_shared drive_id fid)) in Hrun.
  assert (H2 : R s (r_add_lcalls (fst lc)
                     (r_set_struct (st_append path (f_name folder) (r_struct s)) s)))
    by (apply R_read; unfold lc; apply list_children_len).
  destruct (snd lc) as [items|e].
  2:{ injection Hrun as <-. eapply R_trans; [exact H2|apply R_say]. }
  match type of Hrun with context [rsay has_cb ?m ?s2] =>
    assert (H3 : R s (rsay has_cb m s2)) by (eapply R_trans; [exact H2|apply R_say]);
    revert Hrun H3; generalize (rsay has_cb m s2) as s3 end.
  induction items as [|it rest IHit]; intros s3 Hrun H3.
  - injection Hrun as <-. exact H3.
  - simpl in Hrun. destruct (String.eqb (f_mime it) folder_mime).
    + match type of Hrun with context [gfs f (f_id it) ?cur s3] =>
        destruct (gfs f (f_id it) cur s3) as [s4|] eqn:Hc; [|discriminate] end.
      apply (IHit s4 Hrun). eapply R_trans; [exact H3|]. eapply IH; exact Hc.
    + exact (IHit s3 Hrun H3).
Qed.
End ReaderRuns.

(** The reader never removes or reorders anything: existing keys keep
    their order and new keys come after them, each key's list only gets
    names appended, and the listing calls and the reports only grow at
    the end. *)
Definition r_extends (s s' : rstate) : Prop :=
  (exists ks, st_keys (r_struct s') = app (st_keys (r_struct s)) ks) /\
  (forall k, exists sfx, names_at (r_struct s') k = app (names_at (r_struct s) k) sfx) /\
  (exists ls, r_lcalls s' = app (r_lcalls s) ls) /\
  (exists ms, r_log s' = app (r_log s) ms).

(** X6: a run of [get_folder_structure] only extends the structure it is
    given (keys in first-recorded order, names appended in reading
    order), and only appends listing calls and progress reports. *)
Theorem X6_reader_only_appends (svc_get : get_params -> option rfile)
    (svc_list : list_params -> lresult) (is_shared : bool) (drive_id : option string)
    (has_cb : bool) (f : nat) (fid path : string) (s s' : rstate)
    (Hrun : get_folder_structure svc_get svc_list is_shared drive_id has_cb f fid path s = Some s') :
  r_extends s s'.
Proof.
  revert Hrun. apply get_folder_structure_rel.
  - intros s1 s2 s3 (Hk1 & Hn1 & Hc1 & Hl1) (Hk2 & Hn2 & Hc2 & Hl2).
    destruct Hk1 as [k1 Hk1], Hk2 as [k2 Hk2], Hc1 as [c1 Hc1], Hc2 as [c2 Hc2],
      Hl1 as [l1 Hl1], Hl2 as [l2 Hl2].
    split; [|split; [|split]].
    + exists (app k1 k2). now rewrite Hk2, Hk1, app_assoc.
    + intros k. destruct (Hn1 k) as [x1 E1], (Hn2 k) as [x2 E2].
      exists (app x1 x2). now rewrite E2, E1, app_assoc.
    + exists (app c1 c2). now rewrite Hc2, Hc1, app_assoc.
    + exists (app l1 l2). now rewrite Hl2, Hl1, app_assoc.
  - intros m s0. split; [|split; [|split]].
    + exists []. now rewrite rsay_struct, app_nil_r.
    + intros k. exists []. now rewrite rsay_struct, app_nil_r.
    + exists []. now rewrite rsay_lcalls, app_nil_r.
    + eexists. apply rsay_log.
  - intros s0 p nm ls _. split; [|split; [|split]]; simpl.
    + apply st_keys_append.
    + intros k. eexists. apply names_at_st_append.
    + now exists ls.
    + exists []. now rewrite app_nil_r.
Qed.

Lemma X6_reader_only_appends_witness :
  exists s', get_folder_structure demo_get demo_list false None true 3 "R" "" empty_rstate = Some s' /\
    r_extends empty_rstate s'.
Proof.
  eexists. split; [reflexivity|].
  exact (X6_reader_only_appends demo_get demo_list false None true 3 "R" "" empty_rstate _ eq_refl).
Defined.

(** X7: at most two listing requests per recorded folder name: the
    listing calls a run adds are at most twice the names it records (the
    second one being the [includeTeamDriveItems] retry). *)
Theorem X7_listing_calls_per_name (svc_get : get_params -> option rfile)
    (svc_list : list_params -> lresult) (is_shared : bool) (drive_id : option string)
    (has_cb : bool) (f : nat) (fid path : string) (s s' : rstate)
    (Hrun : get_folder_structure svc_get svc_list is_shared drive_id has_cb f fid path s = Some s') :
  length (r_lcalls s') + 2 * st_size (r_struct s) <= length (r_lcalls s) + 2 * st_size (r_struct s').
Proof.
  revert Hrun.
  apply (get_folder_structure_rel svc_get svc_list is_shared drive_id has_cb
           (fun s s' => length (r_lcalls s') + 2 * st_size (r_struct s) <=
                        length (r_lcalls s) + 2 * st_size (r_struct s'))).
  - intros; lia.
  - intros m s0. rewrite rsay_lcalls, rsay_struct. lia.
  - intros s0 p nm ls Hls. simpl. rewrite length_app, st_size_append. lia.
Qed.

Lemma X7_listing_calls_per_name_witness :
  exists s', get_folder_structure demo_get demo_list_old_api true None false 3 "R" "" empty_rstate = Some s' /\
    length (r_lcalls s') + 2 * st_size (r_struct empty_rstate) <=
    length (r_lcalls empty_rstate) + 2 * st_size (r_struct s').
Proof.
  eexists. split; [reflexivity|].
  exact (X7_listing_calls_per_name demo_get demo_list_old_api true None false 3 "R" "" empty_rstate _ eq_refl).
Defined.

(* ------------------------------------------------------------------ *)
(** ** More about [get_shared_drives] *)

(** The newer API returns one page and then raises on the next page
    token. *)
Definition drives_page_then_raise (tok : option string) : option (list string * option string) :=
  match tok with
  | None => Some (["Alpha"], Some "t2")
  | Some _ => None
  end.

Section SharedDrivesFacts.
Variable svc_drives : option string -> option (list string * option string).
Variable svc_teamdrives : option string -> option (list string * option string).

Local Abbreviation page_loop := (page_loop svc_drives svc_teamdrives).

(** A drive is on a page some request of the API returned. *)
Definition on_some_page (team : bool) (d : string) : Prop :=
  exists t page next, (if team then svc_teamdrives else svc_drives) t = Some (page, next) /\ In d page.

Lemma page_loop_acc f : forall team tok acc cs,
  match page_loop f team tok acc cs with
  | LoopDone acc' _ | LoopFailed acc' _ _ =>
      exists more, acc' = app acc more /\ forall d, In d more -> on_some_page team d
  | LoopFuel => True
  end.
Proof.
  induction f as [|f IH]; intros team tok acc cs; simpl; [exact I|].
  destruct ((if team then svc_teamdrives else svc_drives) tok) as [[ds next]|] eqn:Hp.
  2:{ exists []. split; [now rewrite app_nil_r|intros _ []]. }
  assert (Hds : forall d, In d ds -> on_some_page team d) by (intros d Hd; now exists tok, ds, next).
  destruct (truthy next).
  - specialize (IH team next (app acc ds) (app cs [if team then TeamDrivesList tok else DrivesList tok])).
    destruct (page_loop f _ _ _ _); try exact I; destruct IH as [more [-> Hm]];
      exists (app ds more); (split; [now rewrite app_assoc|]);
      intros d Hd; apply in_app_iff in Hd as [Hd|Hd]; auto.
  - exists ds. split; auto.
Qed.
End SharedDrivesFacts.

(** X8: when the newer API fails after some pages, the fallback resumes
    with the older API from the token of the failing request.  When the
    older API completes, the result is the drives already gathered
    followed by its own; when it fails too, the result is empty: the
    drives gathered by both APIs are dropped. *)
Theorem X8_fallback_resumes_from_token
    (svc_drives svc_teamdrives : option string -> option (list string * option string))
    (f : nat) (acc : list string) (tok : option string) (cs : list dcall)
    (Hfail : page_loop svc_drives svc_teamdrives f false None [] [] = LoopFailed acc tok cs) :
  (forall cs' ds, get_shared_drives svc_drives svc_teamdrives f = Some (cs', ds) ->
     exists r, cs' = app cs (TeamDrivesList tok :: r)) /\
  (forall a t cs', page_loop svc_drives svc_teamdrives f true tok acc cs = LoopFailed a t cs' ->
     get_shared_drives svc_drives svc_teamdrives f = Some (cs', [])) /\
  (forall a cs', page_loop svc_drives svc_teamdrives f true tok acc cs = LoopDone a cs' ->
     get_shared_drives svc_drives svc_teamdrives f = Some (cs', a) /\ exists more, a = app acc more).
Proof.
  destruct f as [|g]; [discriminate|].
  unfold get_shared_drives. rewrite Hfail.
  pose proof (page_loop_calls svc_drives svc_teamdrives g true tok acc cs) as Hc.
  pose proof (page_loop_acc svc_drives svc_teamdrives (S g) true tok acc cs) as Ha.
  split; [|split].
  - intros cs' ds Hres.
    destruct (page_loop svc_drives svc_teamdrives (S g) true tok acc cs) as [a c|a t c|];
      [| |discriminate]; injection Hres as <- _; exact Hc.
  - intros a t cs' H. now rewrite H.
  - intros a cs' H. rewrite H in Ha |- *. split; [reflexivity|].
    destruct Ha as [more [-> _]]. now exists more.
Qed.

Lemma X8_fallback_resumes_from_token_witness :
  page_loop drives_page_then_raise drives_raise 3 false None [] [] =
    LoopFailed ["Alpha"] (Some "t2") [DrivesList None; DrivesList (Some "t2")] /\
  get_shared_drives drives_page_then_raise drives_raise 3 =
    Some ([DrivesList None; DrivesList (Some "t2"); TeamDrivesList (Some "t2")], []).
Proof.
  split; [reflexivity|].
  destruct (X8_fallback_resumes_from_token drives_page_then_raise drives_raise 3 ["Alpha"] (Some "t2")
              [DrivesList None; DrivesList (Some "t2")] eq_refl) as (_ & Hdrop & _).
  exact (Hdrop _ _ _ eq_refl).
Defined.

(** X9: every drive [get_shared_drives] returns is on a page that one
    of the two APIs returned. *)
Theorem X9_shared_drives_from_pages
    (svc_drives svc_teamdrives : option string -> option (list string * option string))
    (f : nat) (cs : list dcall) (ds : list string) (d : string)
    (Hres : get_shared_drives svc_drives svc_teamdrives f = Some (cs, ds)) (Hd : In d ds) :
  on_some_page svc_drives svc_teamdrives false d \/ on_some_page svc_drives svc_teamdrives true d.
Proof.
  unfold get_shared_drives in Hres.
  pose proof (page_loop_acc svc_drives svc_teamdrives f false None [] []) as H1.
  destruct (page_loop svc_drives svc_teamdrives f false None [] []) as [a c|a t c|]; [| |discriminate].
  - injection Hres as _ <-. destruct H1 as [more [-> Hm]]. left. now apply Hm.
  - destruct H1 as [more [Ea Hm]]. simpl in Ea. subst a.
    pose proof (page_loop_acc svc_drives svc_teamdrives f true t more c) as H2.
    destruct (page_loop svc_drives svc_teamdrives f true t more c) as [a' c'|a' t' c'|];
      [|injection Hres as _ <-; destruct Hd|discriminate].
    injection Hres as _ <-. destruct H2 as [more' [-> Hm']].
    apply in_app_iff in Hd as [Hd|Hd]; [left; now apply Hm|right; now apply Hm'].
Qed.

Lemma X9_shared_drives_from_pages_witness :
  on_some_page drives_page_then_raise teamdrives_one false "Team" \/
  on_some_page drives_page_then_raise teamdrives_one true "Team".
Proof.
  exact (X9_shared_drives_from_pages drives_page_then_raise teamdrives_one 3
           [DrivesList None; DrivesList (Some "t2"); TeamDrivesList (Some "t2")] ["Alpha"; "Team"] "Team"
           eq_refl ltac:(simpl; auto)).
Defined.

(* ------------------------------------------------------------------ *)
(** ** The tree view *)

Lemma get_key_set_key (k k' : string) (v : nd) (es : list (string * nd)) :
  get_key k (set_key k' v es) = if String.eqb k k' then Some v else get_key k es.
Proof.
  induction es as [|[k0 v0] r IH]; simpl; [reflexivity|].
  destruct (String.eqb_spec k' k0) as [->|Hne]; simpl.
  - now destruct (String.eqb k k0).
  - destruct (String.eqb_spec k k0) as [->|Hk]; [|exact IH].
    apply not_eq_sym, String.eqb_neq in Hne. now rewrite Hne.
Qed.

Lemma get_key_add_empty (n : string) (names : list string) : forall es,
  get_key n (fold_left (fun es f => set_key f (ND []) es) names es) =
  if existsb (String.eqb n) names then Some (ND []) else get_key n es.
Proof.
  induction names as [|a rest IH]; intros es; simpl; [reflexivity|].
  rewrite IH, get_key_set_key.
  destruct (existsb (String.eqb n) rest); [now rewrite orb_true_r|rewrite orb_false_r].
  now destruct (String.eqb n a).
Qed.

Lemma get_key_root_only (x root : string) (l : list string) : forall es,
  get_key x (fold_left (fun es f => if String.eqb f root then set_key f (ND []) es else es) l es) =
  if String.eqb x root && existsb (String.eqb root) l then Some (ND []) else get_key x es.
Proof.
  induction l as [|a rest IH]; intros es; simpl; [now rewrite andb_false_r|].
  rewrite IH.
  destruct (String.eqb_spec a root) as [->|Ha].
  - rewrite String.eqb_refl, get_key_set_key. simpl.
    destruct (String.eqb x root); [|reflexivity]. simpl.
    destruct (existsb (String.eqb root) rest); reflexivity.
  - apply String.eqb_neq in Ha. rewrite (String.eqb_sym root a), Ha. reflexivity.
Qed.

Lemma existsb_eqb_In (n : string) (l : list string) : In n l -> existsb (String.eqb n) l = true.
Proof.
  intros H. apply existsb_exists. exists n. split; [exact H|apply String.eqb_refl].
Qed.

(** [add_empty] keeps every key of the dict it updates. *)
Lemma add_empty_keeps (names : list string) (c : nd) (r : list string) :
  length r <= 1 -> has_path c r -> has_path (add_empty names c) r.
Proof.
  destruct r as [|x [|y r]]; simpl; [auto| |lia].
  intros _ [c' [Hc _]]. unfold add_empty. simpl. rewrite get_key_add_empty.
  destruct (existsb _ _); eauto.
Qed.

(** Navigating to a path and updating the dict reached keeps every path
    no longer than the navigated one plus one key, as long as the update
    keeps the keys of the dict it updates. *)
Lemma update_at_keeps (f : nd -> nd)
    (Hf : forall c r, length r <= 1 -> has_path c r -> has_path (f c) r) (parts : list string) :
  forall d q, length q <= S (length parts) -> has_path d q -> has_path (update_at parts f d) q.
Proof.
  induction parts as [|p ps IH]; intros d q Hlen Hq; simpl; [now apply Hf|].
  destruct q as [|x q']; simpl; [exact I|].
  destruct Hq as [c [Hc Hq']]. simpl in Hlen.
  rewrite get_key_set_key. destruct (String.eqb_spec x p) as [->|Hx].
  - eexists. split; [reflexivity|]. rewrite Hc. apply IH; [lia|exact Hq'].
  - now exists c.
Qed.

Lemma update_at_here (names : list string) (n : string) (Hn : In n names) (parts : list string) :
  forall d, has_path (update_at parts (add_empty names) d) (app parts [n]).
Proof.
  induction parts as [|p ps IH]; intros d; simpl.
  - exists (ND []). split; [|exact I]. unfold add_empty. simpl.
    rewrite get_key_add_empty, existsb_eqb_In by exact Hn. reflexivity.
  - eexists. split; [rewrite get_key_set_key, String.eqb_refl; reflexivity|]. apply IH.
Qed.

Lemma nest_paths_keeps (strc : structure) (paths : list string) : forall d q,
  (forall k, In k paths -> length q <= S (length (split_sep k))) ->
  has_path d q -> has_path (nest_paths strc paths d) q.
Proof.
  unfold nest_paths. induction paths as [|k0 rest IH]; intros d q Hlen Hq; simpl; [exact Hq|].
  apply IH; [intros k Hk; apply Hlen; now right|].
  destruct (String.eqb k0 ""); [exact Hq|].
  apply update_at_keeps; [apply add_empty_keeps|apply Hlen; now left|exact Hq].
Qed.

Lemma nest_paths_has (strc : structure) (paths : list string)
    (Hs : StronglySorted (fun a b => length (split_sep a) <= length (split_sep b)) paths)
    (k n : string) (Hk : In k paths) (Hne : k <> "") (Hn : In n (names_at strc k)) :
  forall d, has_path (nest_paths strc paths d) (app (split_sep k) [n]).
Proof.
  induction Hs as [|k0 rest Hs IH Hall]; [destruct Hk|]. intros d.
  destruct Hk as [<-|Hk]; [|unfold nest_paths in *; simpl; apply IH, Hk].
  unfold nest_paths. simpl. apply String.eqb_neq in Hne. rewrite Hne.
  apply nest_paths_keeps; [|apply update_at_here, Hn].
  intros k' Hk'. rewrite length_app. simpl.
  rewrite List.Forall_forall in Hall. specialize (Hall k' Hk'). simpl in Hall. lia.
Qed.

Lemma names_at_in_keys (strc : structure) (k n : string) :
  In n (names_at strc k) -> In k (st_keys strc).
Proof.
  unfold names_at, st_keys. induction strc as [|[k' v] r IH]; simpl; [tauto|].
  destruct (String.eqb_spec k k') as [->|_]; [now left|]. intros H; right; now apply IH.
Qed.

(** X10: every recorded folder appears in the tree view: a name recorded
    under a non-empty key [k] is reached by the parts of [k.split(os.sep)]
    followed by the name, and the source folder's name recorded under the
    empty key is a top-level entry. *)
Theorem X10_display_shows_recorded (strc : structure) (root k n : string)
    (Hin : In n (names_at strc k)) (Hok : k <> "" \/ n = root) :
  has_path (display_nested_structure strc root)
    (if String.eqb k "" then [n] else app (split_sep k) [n]).
Proof.
  unfold display_nested_structure.
  set (paths := sort_on (fun x => length (split_sep x)) (st_keys strc)).
  assert (Hperm : Permutation paths (st_keys strc)) by apply sort_on_perm.
  destruct (String.eqb_spec k "") as [->|Hne].
  - destruct Hok as [Hk| ->]; [now contradiction Hk|].
    apply nest_paths_keeps; [intros; simpl; lia|].
    unfold names_at in Hin. destruct (st_lookup "" strc) as [[|a l]|]; [destruct Hin| |destruct Hin].
    exists (ND []). split; [|exact I].
    assert (E := get_key_root_only root root (a :: l) []).
    rewrite String.eqb_refl, existsb_eqb_In in E by exact Hin. exact E.
  - apply nest_paths_has; [apply sort_on_sorted| |exact Hne|exact Hin].
    eapply Permutation_in; [symmetry; exact Hperm|]. eapply names_at_in_keys; exact Hin.
Qed.

(** A structure as the reader records it for a source folder [Root]. *)
Definition demo_structure : structure :=
  [(""%string, ["Root"]); ("Root", ["A"; "B"]); ("Root/A", ["C"])].

Lemma X10_display_shows_recorded_witness :
  has_path (display_nested_structure demo_structure "Root")
    (if String.eqb "Root/A" "" then ["C"] else app (split_sep "Root/A") ["C"]).
Proof.
  apply (X10_display_shows_recorded demo_structure "Root" "Root/A" "C").
  - vm_compute. now left.
  - left. discriminate.
Defined.

Lemma split_sep_cons (s : string) : exists p ps, split_sep s = p :: ps.
Proof.
  induction s as [|c r [p [ps IH]]]; simpl; [now exists "", []|].
  rewrite IH. destruct (is_sep c); eauto.
Qed.

Lemma nest_paths_top (strc : structure) (paths : list string) : forall d x,
  get_key x (nd_entries (nest_paths strc paths d)) <> None ->
  get_key x (nd_entries d) <> None \/
  exists k, In k paths /\ k <> "" /\ hd_error (split_sep k) = Some x.
Proof.
  unfold nest_paths. induction paths as [|k0 rest IH]; intros d x H; simpl in H; [now left|].
  apply IH in H as [H|[k [Hk Hrest]]]; [|right; exists k; split; [now right|exact Hrest]].
  destruct (String.eqb_spec k0 "") as [_|Hne]; [now left|].
  destruct (split_sep_cons k0) as [p [ps Hsp]]. rewrite Hsp in H. simpl in H.
  rewrite get_key_set_key in H. destruct (String.eqb_spec x p) as [->|_]; [|now left].
  right. exists k0. split; [now left|]. split; [exact Hne|]. now rewrite Hsp.
Qed.

(** X11: the tree view's top-level entries are the source folder (when
    it is recorded under the empty key) and the first components of the
    non-empty keys; nothing else reaches the top level. *)
Theorem X11_display_top_level (strc : structure) (root x : string)
    (Hx : get_key x (nd_entries (display_nested_structure strc root)) <> None) :
  (x = root /\ In root (names_at strc "")) \/
  exists k, In k (st_keys strc) /\ k <> "" /\ hd_error (split_sep k) = Some x.
Proof.
  unfold display_nested_structure in Hx.
  apply nest_paths_top in Hx as [Hx|[k [Hk Hrest]]].
  - left. unfold names_at.
    destruct (st_lookup "" strc) as [[|a l]|]; cbv beta iota delta [nd_entries] in Hx;
      try now contradiction Hx.
    rewrite get_key_root_only in Hx.
    destruct (String.eqb_spec x root) as [->|_]; [|now contradiction Hx].
    split; [reflexivity|].
    destruct (existsb (String.eqb root) (a :: l)) eqn:E; [|now contradiction Hx].
    apply existsb_exists in E as [y [Hy Ey]]. apply String.eqb_eq in Ey. now subst y.
  - right. exists k. split; [|exact Hrest].
    eapply Permutation_in; [apply sort_on_perm|exact Hk].
Qed.

Lemma X11_display_top_level_witness :
  ("Root" = "Root" /\ In "Root" (names_at demo_structure "")) \/
  exists k, In k (st_keys demo_structure) /\ k <> "" /\ hd_error (split_sep k) = Some "Root".
Proof.
  apply (X11_display_top_level demo_structure "Root" "Root"). vm_compute. discriminate.
Defined.

(** Induction on nested dicts. *)
Fixpoint nd_rect' (P : nd -> Prop) (H : forall es, Forall (fun e => P (snd e)) es -> P (ND es))
    (d : nd) {struct d} : P d :=
  match d with
  | ND es => H es ((fix go (es : list (string * nd)) : Forall (fun e => P (snd e)) es :=
                      match es with
                      | [] => List.Forall_nil _
                      | (k, v) :: r => @List.Forall_cons _ (fun e => P (snd e)) (k, v) r (nd_rect' P H v) (go r)
                      end) es)
  end.

Lemma spaces_succ (i j : nat) : spaces (S i + j) = spaces (i + S j).
Proof. f_equal. lia. Qed.

Lemma in_tree_cons (e : string * nd) (r : list (string * nd)) (q : list string) :
  in_tree (ND r) q -> in_tree (ND (e :: r)) q.
Proof. destruct q as [|p q]; simpl; [auto|]. intros [c [Hin Hq]]. exists c. split; [now right|exact Hq]. Qed.

Local Ltac same_indent :=
  cbn [length]; apply (f_equal2 String.append); [apply f_equal; lia|reflexivity].

(** X12: [print_nested_structure(nested, indent)] prints one line per
    entry at every level of the nested dict: the lines are exactly, for
    each path of entries [ps ++ [k]] in the dict, [indent + len(ps)]
    two-space indents followed by the branch mark and [k], and there are
    as many lines as entries. *)
Theorem X12_print_one_line_per_key (d : nd) : forall indent,
  length (print_nested_structure d indent) = nd_size d /\
  forall line, In line (print_nested_structure d indent) <->
    exists ps k, in_tree d (app ps [k]) /\
      line = String.append (spaces (indent + length ps)) (String.append "└── " k).
Proof.
  induction d as [es Hes] using nd_rect'.
  induction es as [|[k v] r IHr]; intros indent.
  { split; [reflexivity|]. intros line. split; [intros []|].
    intros (ps & k & Hin & _). destruct ps; simpl in Hin; destruct Hin as [c [[] _]]. }
  inversion Hes as [|? ? Hv Hr]; subst. simpl in Hv. specialize (IHr Hr).
  change (print_nested_structure (ND ((k, v) :: r)) indent) with
    (String.append (spaces indent) (String.append "└── " k)
       :: app (print_nested_structure v (S indent)) (print_nested_structure (ND r) indent)).
  change (nd_size (ND ((k, v) :: r))) with (S (nd_size v + nd_size (ND r))).
  destruct (Hv (S indent)) as [Lv Iv]. destruct (IHr indent) as [Lr Ir].
  split; [cbn [length]; rewrite length_app, Lv, Lr; reflexivity|].
  intros line. split.
  - intros [<-|Hl].
    + exists [], k. split; [exists v; split; [now left|exact I]|same_indent].
    + apply in_app_iff in Hl as [Hl|Hl].
      * apply Iv in Hl as (ps & k' & Ht & ->). exists (k :: ps), k'.
        split; [exists v; split; [now left|exact Ht]|same_indent].
      * apply Ir in Hl as (ps & k' & Ht & ->). exists ps, k'.
        split; [apply in_tree_cons, Ht|reflexivity].
  - intros (ps & k' & Ht & ->). destruct ps as [|p ps'].
    + simpl in Ht. destruct Ht as [c [[Heq|Hin] _]].
      * injection Heq as -> ->. left. same_indent.
      * right. apply in_app_iff. right. apply Ir. exists [], k'.
        split; [now exists c|reflexivity].
    + simpl in Ht. destruct Ht as [c [[Heq|Hin] Ht]].
      * injection Heq as -> ->. right. apply in_app_iff. left. apply Iv.
        exists ps', k'. split; [exact Ht|same_indent].
      * right. apply in_app_iff. right. apply Ir. exists (p :: ps'), k'.
        split; [now exists c|reflexivity].
Qed.

(* ------------------------------------------------------------------ *)
(** ** Reading, then building the tree view *)

(** Names recorded before a run of the reader are still recorded after
    it. *)
Definition keeps_names (s s' : rstate) : Prop :=
  forall k n, In n (names_at (r_struct s) k) -> In n (names_at (r_struct s') k).

Lemma get_folder_structure_keeps_names (svc_get : get_params -> option rfile)
    (svc_list : list_params -> lresult) (is_shared : bool) (drive_id : option string)
    (has_cb : bool) (f : nat) (fid path : string) (s s' : rstate) :
  get_folder_structure svc_get svc_list is_shared drive_id has_cb f fid path s = Some s' ->
  keeps_names s s'.
Proof.
  apply get_folder_structure_rel; unfold keeps_names.
  - intros s1 s2 s3 H12 H23 k n H. auto.
  - intros m s0 k n. now rewrite rsay_struct.
  - intros s0 p nm ls _ k n H. simpl. rewrite names_at_st_append. apply in_app_iff. now left.
Qed.

(** A successful read records the name of the folder it starts from
    under the path it is given. *)
Lemma get_folder_structure_records_start (svc_get : get_params -> option rfile)
    (svc_list : list_params -> lresult) (is_shared : bool) (drive_id : option string)
    (has_cb : bool) (f : nat) (fid path : string) (s s' : rstate) (fl : rfile)
    (Hg : svc_get (get_params_for is_shared fid) = Some fl)
    (Hrun : get_folder_structure svc_get svc_list is_shared drive_id has_cb (S f) fid path s = Some s') :
  In (f_name fl) (names_at (r_struct s') path).
Proof.
  cbn -[list_children mk_list_params get_params_for rsay] in Hrun. rewrite Hg in Hrun.
  set (s2 := r_add_lcalls (fst (list_children svc_list (mk_list_params is_shared drive_id fid)))
               (r_set_struct (st_append path (f_name fl) (r_struct s)) s)) in Hrun.
  assert (H2 : In (f_name fl) (names_at (r_struct s2) path)) by apply names_at_append_here.
  destruct (snd (list_children svc_list (mk_list_params is_shared drive_id fid))) as [items|e].
  2:{ injection Hrun as <-. now rewrite rsay_struct. }
  match type of Hrun with context [rsay has_cb ?m s2] =>
    assert (H3 : In (f_name fl) (names_at (r_struct (rsay has_cb m s2)) path))
      by (now rewrite rsay_struct);
    revert Hrun H3; generalize (rsay has_cb m s2) as s3 end.
  induction items as [|it rest IHit]; intros s3 Hrun H3.
  - injection Hrun as <-. exact H3.
  - simpl in Hrun. destruct (String.eqb (f_mime it) folder_mime).
    + match type of Hrun with context [get_folder_structure _ _ _ _ _ f (f_id it) ?cur s3] =>
        destruct (get_folder_structure svc_get svc_list is_shared drive_id has_cb f (f_id it) cur s3)
          as [s4|] eqn:Hc; [|discriminate] end.
      apply (IHit s4 Hrun). eapply get_folder_structure_keeps_names; [exact Hc|exact H3].
    + exact (IHit s3 Hrun H3).
Qed.

(** X14: reading a folder with [get_folder_structure] from the empty
    path and then building the tree with [display_nested_structure],
    given that folder's name as [source_folder_name], always puts the
    folder at the top level of the tree when the read succeeds. *)
Theorem X14_tree_shows_source (svc_get : get_params -> option rfile)
    (svc_list : list_params -> lresult) (is_shared : bool) (drive_id : option string)
    (has_cb : bool) (f : nat) (fid : string) (s' : rstate) (fl : rfile)
    (Hg : svc_get (get_params_for is_shared fid) = Some fl)
    (Hrun : get_folder_structure svc_get svc_list is_shared drive_id has_cb (S f) fid "" empty_rstate = Some s') :
  has_path (display_nested_structure (r_struct s') (f_name fl)) [f_name fl].
Proof.
  pose proof (get_folder_structure_records_start svc_get svc_list is_shared drive_id has_cb f fid ""
                empty_rstate s' fl Hg Hrun) as Hin.
  unfold display_nested_structure.
  apply nest_paths_keeps; [intros; simpl; lia|].
  unfold names_at in Hin. destruct (st_lookup "" (r_struct s')) as [[|a l]|]; [destruct Hin| |destruct Hin].
  exists (ND []). split; [|exact I].
  assert (E := get_key_root_only (f_name fl) (f_name fl) (a :: l) []).
  rewrite String.eqb_refl, existsb_eqb_In in E by exact Hin. exact E.
Qed.

Lemma X14_tree_shows_source_witness :
  exists s', get_folder_structure demo_get demo_list false None true 3 "R" "" empty_rstate = Some s' /\
    has_path (display_nested_structure (r_struct s') (f_name f_root)) [f_name f_root].
Proof.
  eexists. split; [reflexivity|].
  exact (X14_tree_shows_source demo_get demo_list false None true 2 "R" _ f_root eq_refl eq_refl).
Defined.

(* ------------------------------------------------------------------ *)
(** ** How many folders the writer creates *)

Lemma list_sum_perm (l l' : list nat) : Permutation l l' -> list_sum l = list_sum l'.
Proof. induction 1; simpl; lia. Qed.

Lemma create_each_calls_len (svc_create : nat -> option string) (root : string)
    (is_shared has_cb : bool) (path pid : string) (names : list string) : forall s,
  length (w_calls (create_each svc_create root is_shared has_cb path pid names s)) <=
  length (w_calls s) + length names.
Proof.
  induction names as [|nm rest IH]; intros s; simpl; [lia|].
  destruct (String.eqb path "" && String.eqb nm root); [specialize (IH s); lia|].
  match goal with |- context [create_each _ _ _ _ path pid rest ?s2] =>
    specialize (IH s2); assert (E : length (w_calls s2) = S (length (w_calls s))) end.
  { destruct (svc_create (length (w_calls s))); unfold say; destruct has_cb; simpl;
      rewrite length_app; simpl; lia. }
  lia.
Qed.

Lemma process_paths_calls_len (svc_create : nat -> option string) (strc : structure)
    (root dest : string) (is_shared has_cb : bool) (paths : list string) : forall s,
  length (w_calls (final (process_paths svc_create strc root dest is_shared has_cb paths s))) <=
  length (w_calls s) + list_sum (map (fun k => length (names_at strc k)) paths).
Proof.
  induction paths as [|path rest IH]; intros s; simpl; [lia|].
  destruct (String.eqb path "" && str_mem root (names_at strc path)); [specialize (IH s); lia|].
  assert (Hsay : forall m, length (w_calls (say has_cb m s)) = length (w_calls s))
    by (intros; now rewrite say_calls).
  assert (Hce : forall pid s1, length (w_calls s1) = length (w_calls s) ->
            length (w_calls (final (process_paths svc_create strc root dest is_shared has_cb rest
              (create_each svc_create root is_shared has_cb path pid (names_at strc path) s1)))) <=
            length (w_calls s) + (length (names_at strc path) +
              list_sum (map (fun k => length (names_at strc k)) rest))).
  { intros pid s1 E. etransitivity; [apply IH|].
    pose proof (create_each_calls_len svc_create root is_shared has_cb path pid (names_at strc path) s1). lia. }
  destruct (w_map _ !! _) as [pid|]; [apply Hce, Hsay|].
  destruct (String.eqb path ""); [apply Hce, Hsay|].
  destruct has_cb; simpl.
  - etransitivity; [apply IH|]. simpl. unfold say. simpl. lia.
  - unfold say. lia.
Qed.

Lemma names_sum_st_size (strc : structure) (Hnd : NoDup (st_keys strc)) :
  list_sum (map (fun k => length (names_at strc k)) (st_keys strc)) = st_size strc.
Proof.
  induction strc as [|[k v] r IH]; [reflexivity|].
  unfold st_keys in Hnd. simpl in Hnd. apply NoDup_cons in Hnd as [Hk Hnd].
  change (st_size ((k, v) :: r)) with (length v + st_size r).
  unfold st_keys. simpl. f_equal.
  - unfold names_at. simpl. now rewrite String.eqb_refl.
  - rewrite <- (IH Hnd). unfold st_keys. apply f_equal, map_ext_in.
    intros k' Hk'. unfold names_at. simpl.
    destruct (String.eqb_spec k' k) as [->|_]; [|reflexivity].
    contradiction Hk. now apply list_elem_of_In.
Qed.

(** X15: the writer makes at most one creation request per recorded
    folder name (a dict's keys are distinct): there are no retries, and
    a key whose parent is missing creates nothing. *)
Theorem X15_one_request_per_name (svc_create : nat -> option string) (strc : structure)
    (root dest : string) (is_shared has_cb : bool) (Hnd : NoDup (st_keys strc)) :
  length (w_calls (final (create_folder_structure svc_create strc root dest is_shared has_cb))) <=
  st_size strc.
Proof.
  unfold create_folder_structure.
  etransitivity; [apply process_paths_calls_len|].
  rewrite say_calls. replace (length _) with 0 by (destruct has_cb; reflexivity).
  rewrite <- (names_sum_st_size strc Hnd), sort_by_depth_on.
  apply Nat.eq_le_incl, list_sum_perm, Permutation_map, sort_on_perm.
Qed.

Lemma X15_one_request_per_name_witness :
  length (w_calls (final (create_folder_structure fresh_ids scenario "A" "ROOT" false true))) <=
  st_size scenario.
Proof.
  apply X15_one_request_per_name. apply (bool_decide_unpack _). vm_compute. reflexivity.
Defined.

(* ------------------------------------------------------------------ *)
(** ** [str.split] against [posixpath.join] *)

Lemma split_sep_app_sep (x y : string) :
  split_sep (String.append x (String sep y)) = app (split_sep x) (split_sep y).
Proof.
  induction x as [|c r IH]; simpl; [reflexivity|].
  rewrite IH. destruct (is_sep c); [reflexivity|].
  destruct (split_sep_cons r) as [h [t ->]]. reflexivity.
Qed.

Lemma split_sep_no_sep (b : string) : count_sep b = 0 -> split_sep b = [b].
Proof.
  induction b as [|c r IH]; simpl; [reflexivity|].
  destruct (is_sep c); [discriminate|]. intros H. now rewrite IH.
Qed.

(** X16: splitting a path the reader built by joining a separator-free
    name under a non-empty path not ending in a separator gives the
    parent's parts followed by the name, so the tree view nests a child
    exactly under its parent. *)
Theorem X16_split_of_join (a b : string) (Ha : a <> "") (Hend : ends_with_sep a = false)
    (Hb : count_sep b = 0) :
  split_sep (path_join a b) = app (split_sep a) [b].
Proof.
  unfold path_join.
  destruct (starts_with_sep b) eqn:Hs; [pose proof (starts_with_sep_count b Hs); lia|].
  apply String.eqb_neq in Ha. rewrite Ha, Hend. simpl.
  rewrite split_sep_app_sep, (split_sep_no_sep b Hb). reflexivity.
Qed.

Lemma X16_split_of_join_witness :
  split_sep (path_join "Root/A" "C") = app (split_sep "Root/A") ["C"].
Proof. apply X16_split_of_join; [discriminate|reflexivity|reflexivity]. Defined.

(* ------------------------------------------------------------------ *)
(** ** The listing retry inside the reader *)

(** A run of the reader only appends listing calls. *)
Lemma get_folder_structure_lcalls (svc_get : get_params -> option rfile)
    (svc_list : list_params -> lresult) (is_shared : bool) (drive_id : option string)
    (has_cb : bool) (f : nat) (fid path : string) (s s' : rstate) :
  get_folder_structure svc_get svc_list is_shared drive_id has_cb f fid path s = Some s' ->
  exists ls, r_lcalls s' = app (r_lcalls s) ls.
Proof.
  apply (get_folder_structure_rel svc_get svc_list is_shared drive_id has_cb
           (fun s s' => exists ls, r_lcalls s' = app (r_lcalls s) ls)).
  - intros s1 s2 s3 [l1 E1] [l2 E2]. exists (app l1 l2). now rewrite E2, E1, app_assoc.
  - intros m s0. exists []. now rewrite rsay_lcalls, app_nil_r.
  - intros s0 p nm ls _. now exists ls.
Qed.

(** C7 (amended): when a node's child listing fails with an error whose
    text does not mention [includeItemsFromAllDrives], it is not retried:
    the node issues that one listing and reports its read error.  When the
    text mentions it, the listing is retried exactly once, with the same
    query, [includeItemsFromAllDrives] removed and [includeTeamDriveItems]
    set: every completed read of the node issues the listing and then the
    retry before any other listing, and a failure of the retry becomes
    the node's read error with no further call.  This is not the only
    fallback: whenever a [drives().list] page request raises in
    [get_shared_drives], the next request is [teamdrives().list] for the
    page token of the failing request. *)
Theorem C7_listing_retry (svc_get : get_params -> option rfile)
    (svc_list : list_params -> lresult) (is_shared : bool) (drive_id : option string)
    (has_cb : bool) (f : nat) (fid path : string) (s : rstate) (folder : rfile)
    (Hg : svc_get (get_params_for is_shared fid) = Some folder) :
  let p := mk_list_params is_shared drive_id fid in
  let rep := if has_cb then [MReadError path fid] else [] in
  (forall e, svc_list p = LErr e -> contains "includeItemsFromAllDrives" e = false ->
     exists s', get_folder_structure svc_get svc_list is_shared drive_id has_cb (S f) fid path s = Some s' /\
       r_lcalls s' = app (r_lcalls s) [p] /\ r_log s' = app (r_log s) rep) /\
  (forall e e', svc_list p = LErr e -> contains "includeItemsFromAllDrives" e = true ->
     svc_list (legacy p) = LErr e' ->
     exists s', get_folder_structure svc_get svc_list is_shared drive_id has_cb (S f) fid path s = Some s' /\
       r_lcalls s' = app (r_lcalls s) [p; legacy p] /\ r_log s' = app (r_log s) rep) /\
  (forall e s', svc_list p = LErr e -> contains "includeItemsFromAllDrives" e = true ->
     get_folder_structure svc_get svc_list is_shared drive_id has_cb (S f) fid path s = Some s' ->
     exists rest, r_lcalls s' = app (r_lcalls s) (p :: legacy p :: rest)) /\
  (lp_q (legacy p) = lp_q p /\ lp_includeItemsFromAllDrives (legacy p) = None /\
   lp_includeTeamDriveItems (legacy p) = Some true) /\
  (forall (svc_drives svc_teamdrives : option string -> option (list string * option string))
          g acc tok cs,
     page_loop svc_drives svc_teamdrives g false None [] [] = LoopFailed acc tok cs ->
     get_shared_drives svc_drives svc_teamdrives g = None \/
     exists cs' ds r, get_shared_drives svc_drives svc_teamdrives g = Some (cs', ds) /\
       cs' = app cs (TeamDrivesList tok :: r)).
Proof.
  intros p rep.
  assert (Hunf : forall s',
    get_folder_structure svc_get svc_list is_shared drive_id has_cb (S f) fid path s = Some s' <->
    (let cur := if String.eqb path "" then f_name folder else path_join path (f_name folder) in
     let s2 := r_add_lcalls (fst (list_children svc_list p))
                 (r_set_struct (st_append path (f_name folder) (r_struct s)) s) in
     match snd (list_children svc_list p) with
     | LErr _ => Some (rsay has_cb (MReadError path fid) s2)
     | LOk items =>
         (fix loop (its : list rfile) (s : rstate) : option rstate :=
            match its with
            | [] => Some s
            | it :: rest =>
                if String.eqb (f_mime it) folder_mime then
                  match get_folder_structure svc_get svc_list is_shared drive_id has_cb f (f_id it) cur s with
                  | None => None
                  | Some s' => loop rest s'
                  end
                else loop rest s
            end) items (rsay has_cb (MReading cur) s2)
     end = Some s')).
  { intros s'. cbn -[list_children mk_list_params get_params_for rsay]. rewrite Hg. reflexivity. }
  assert (Herr : forall ls e0, fst (list_children svc_list p) = ls ->
            snd (list_children svc_list p) = LErr e0 ->
            exists s', get_folder_structure svc_get svc_list is_shared drive_id has_cb (S f) fid path s = Some s' /\
              r_lcalls s' = app (r_lcalls s) ls /\ r_log s' = app (r_log s) rep).
  { intros ls e0 Hf Hs. eexists. split; [apply Hunf; simpl; rewrite Hs; reflexivity|].
    rewrite rsay_lcalls, rsay_log. simpl. now rewrite Hf. }
  split; [|split; [|split; [|split]]].
  - intros e He Hc. apply (Herr [p] e); unfold list_children; rewrite He, Hc; reflexivity.
  - intros e e' He Hc He'. apply (Herr [p; legacy p] e'); unfold list_children; rewrite He, Hc;
      [reflexivity|exact He'].
  - intros e s' He Hc Hrun. apply Hunf in Hrun. simpl in Hrun.
    assert (Hf : fst (list_children svc_list p) = [p; legacy p])
      by (unfold list_children; rewrite He, Hc; reflexivity).
    rewrite Hf in Hrun.
    destruct (snd (list_children svc_list p)) as [items|e0].
    + match type of Hrun with context [rsay has_cb ?m ?s2] =>
        assert (H3 : exists rest, r_lcalls (rsay has_cb m s2) = app (r_lcalls s) (p :: legacy p :: rest))
          by (exists []; rewrite rsay_lcalls; reflexivity);
        revert Hrun H3; generalize (rsay has_cb m s2) as s3 end.
      clear Hunf Herr. induction items as [|it rest IHit]; intros s3 Hrun H3.
      * injection Hrun as <-. exact H3.
      * simpl in Hrun. destruct (String.eqb (f_mime it) folder_mime).
        -- match type of Hrun with context [get_folder_structure _ _ _ _ _ f (f_id it) ?cur s3] =>
             destruct (get_folder_structure svc_get svc_list is_shared drive_id has_cb f (f_id it) cur s3)
               as [s4|] eqn:Hc4; [|discriminate] end.
           apply (IHit s4 Hrun). destruct H3 as [r3 E3].
           destruct (get_folder_structure_lcalls _ _ _ _ _ _ _ _ _ _ Hc4) as [l4 E4].
           exists (app r3 l4). rewrite E4, E3. now rewrite <- app_assoc.
        -- exact (IHit s3 Hrun H3).
    + injection Hrun as <-. exists []. rewrite rsay_lcalls. reflexivity.
  - split; [reflexivity|split; reflexivity].
  - intros svc_drives svc_teamdrives g acc tok cs Hfail.
    destruct g as [|g]; [discriminate|].
    unfold get_shared_drives. rewrite Hfail.
    pose proof (page_loop_calls svc_drives svc_teamdrives g true tok acc cs) as Hc.
    destruct (page_loop svc_drives svc_teamdrives (S g) true tok acc cs) as [a c|a t c|];
      [right|right|now left]; destruct Hc as [r ->]; eauto.
Qed.

Lemma C7_listing_retry_witness :
  exists s' rest,
    get_folder_structure demo_get demo_list_old_api true None true 3 "R" "" empty_rstate = Some s' /\
    r_lcalls s' = app (r_lcalls empty_rstate)
      (mk_list_params true None "R" :: legacy (mk_list_params true None "R") :: rest).
Proof.
  destruct (C7_listing_retry demo_get demo_list_old_api true None true 2 "R" "" empty_rstate f_root eq_refl)
    as (_ & _ & H3 & _).
  specialize (H3 _ _ eq_refl eq_refl eq_refl) as [rest Hr].
  eexists _, rest. split; [reflexivity|exact Hr].
Defined.
